(** * patient-doctor: the in-memory registry and its notification hub

    A shallow embedding of [main.go]: the [Store] (directory of patients and
    doctors, the patient -> doctor selection map, the per-doctor subscriber
    sets), the channels the subscribers listen on, the selection snapshot on
    disk and the readers-writer mutex that guards the store.

    Every method of [Store] is a program in a small monad [M] that threads
    the world, records the events the method performs (lock operations, the
    map write, channel sends, file accesses) and ends in one of three ways:
    it returns, it panics, or it blocks on the mutex. *)

From stdpp Require Import gmap strings list fin_maps fin_sets.

Local Open Scope Z_scope.

#[local] Set Warnings "-clear-no-such-hyp".

(** ** Data model (main.go, lines 19-66) *)

Record Patient := mkPatient {
  Patient_ID : Z;
  Patient_Login : string;
  Patient_Password : string;
  Patient_Name : string
}.

Record Doctor := mkDoctor {
  Doctor_ID : Z;
  Doctor_Login : string;
  Doctor_Password : string;
  Doctor_First : string;
  Doctor_Last : string;
  Doctor_Middle : string;
  Doctor_Special : string
}.

Record Seed := mkSeed {
  Seed_Patients : list Patient;
  Seed_Doctors : list Doctor
}.

Record Selection := mkSelection {
  PatientID : Z;
  DoctorID : Z
}.

(** The anonymous struct stored in [byLogin]. *)
Record LoginEntry := mkLoginEntry {
  role : string;
  id : Z;
  pass : string
}.

(** A [chan struct{}] is identified by its address; its elements carry no
    data, so the buffer is the number of pending signals. *)
Abbreviation chan := nat.

Record Chan := mkChan {
  cap : nat;
  buf : nat;
  closed : bool
}.

(** [sync.RWMutex]: one writer or any number of readers. *)
Record RWMutex := mkRWMutex {
  writer : bool;
  readers : nat
}.

#[global] Instance RWMutex_eq_dec : EqDecision RWMutex.
Proof. solve_decision. Defined.

Definition unlocked : RWMutex := mkRWMutex false 0.

Record Store := mkStore {
  mu : RWMutex;
  patients : gmap Z Patient;
  doctors : gmap Z Doctor;
  byLogin : gmap string LoginEntry;
  selections : gmap Z Z;
  subs : gmap Z (gset nat)
}.

(** The two files the program touches: the seed ([seedPath]) and the
    selection snapshot ([selectionFile], in the seed's directory).  A file
    holds the value its JSON text decodes to; [None] is a file that cannot
    be read or does not parse, which the code treats alike (it returns the
    error).  [writable] tells whether [os.WriteFile] succeeds. *)
Record Disk := mkDisk {
  seedFile : option Seed;
  selectionFile : option (list Selection);
  writable : bool
}.

(** The world a method runs in: the store, the channels allocated so far,
    the disk, and the number of [go s.persistSelections()] goroutines that
    were started and have not run yet. *)
Record World := mkWorld {
  store : Store;
  heap : gmap nat Chan;
  disk : Disk;
  spawned : nat
}.

(** ** Events, outcomes and the monad *)

Inductive event :=
| EvLock
| EvUnlock
| EvRLock
| EvRUnlock
| EvAssign (patientID doctorID : Z)
| EvGo
| EvSend (ch : chan) (delivered : bool)
| EvRecv (ch : chan)
| EvMake (ch : chan)
| EvClose (ch : chan)
| EvReadFile
| EvWriteFile (ok : bool).

Inductive outcome (A : Type) :=
| Returned (a : A)
| Panicked (msg : string)
| Blocked.
Arguments Returned {A} a.
Arguments Panicked {A} msg.
Arguments Blocked {A}.

Record Run (A : Type) := mkRun {
  trace : list event;
  final : World;
  result : outcome A
}.
Arguments mkRun {A} trace final result.
Arguments trace {A} r.
Arguments final {A} r.
Arguments result {A} r.

Definition M (A : Type) : Type := World → Run A.

Definition ret {A} (a : A) : M A := λ w, mkRun [] w (Returned a).

Definition bind {A B} (f : A → M B) (m : M A) : M B := λ w,
  match m w with
  | mkRun t w' (Returned a) =>
      match f a w' with
      | mkRun t' w'' res => mkRun (t ++ t') w'' res
      end
  | mkRun t w' (Panicked msg) => mkRun t w' (Panicked msg)
  | mkRun t w' Blocked => mkRun t w' Blocked
  end.

#[global] Instance M_ret : MRet M := @ret.
#[global] Instance M_bind : MBind M := @bind.

Definition panic {A} (msg : string) : M A := λ w, mkRun [] w (Panicked msg).
Definition block {A} : M A := λ w, mkRun [] w Blocked.
Definition emit (e : event) : M unit := λ w, mkRun [e] w (Returned tt).
Definition getStore : M Store := λ w, mkRun [] w (Returned (store w)).
Definition getHeap : M (gmap nat Chan) := λ w, mkRun [] w (Returned (heap w)).
Definition getDisk : M Disk := λ w, mkRun [] w (Returned (disk w)).
Definition putStore (s : Store) : M unit := λ w,
  mkRun [] (mkWorld s (heap w) (disk w) (spawned w)) (Returned tt).
Definition putHeap (h : gmap nat Chan) : M unit := λ w,
  mkRun [] (mkWorld (store w) h (disk w) (spawned w)) (Returned tt).
Definition putDisk (d : Disk) : M unit := λ w,
  mkRun [] (mkWorld (store w) (heap w) d (spawned w)) (Returned tt).

(** [defer d] around a body: the deferred call runs when the body returns
    and also when it panics (the panic goes on afterwards); a body that is
    blocked never reaches it. *)
Definition defer {A} (d : M unit) (body : M A) : M A := λ w,
  match body w with
  | mkRun t w' Blocked => mkRun t w' Blocked
  | mkRun t w' res =>
      match d w' with
      | mkRun t' w'' (Returned _) => mkRun (t ++ t') w'' res
      | mkRun t' w'' (Panicked msg) => mkRun (t ++ t') w'' (Panicked msg)
      | mkRun t' w'' Blocked => mkRun (t ++ t') w'' Blocked
      end
  end.

(** [for _, x := range l { body x }] once the iteration order [l] is fixed. *)
Fixpoint for_range {A} (l : list A) (body : A → M unit) : M unit :=
  match l with
  | [] => mret tt
  | x :: l' => body x ;; for_range l' body
  end.

(** ** The mutex *)

Definition set_mu (m : RWMutex) (s : Store) : Store :=
  mkStore m (patients s) (doctors s) (byLogin s) (selections s) (subs s).

Definition Lock : M unit :=
  s ← getStore;
  if writer (mu s) then block
  else match readers (mu s) with
       | O => putStore (set_mu (mkRWMutex true 0) s) ;; emit EvLock
       | S _ => block
       end.

Definition Unlock : M unit :=
  s ← getStore;
  if writer (mu s)
  then putStore (set_mu (mkRWMutex false (readers (mu s))) s) ;; emit EvUnlock
  else panic "sync: Unlock of unlocked RWMutex".

Definition RLock : M unit :=
  s ← getStore;
  if writer (mu s) then block
  else putStore (set_mu (mkRWMutex false (S (readers (mu s)))) s) ;; emit EvRLock.

Definition RUnlock : M unit :=
  s ← getStore;
  match readers (mu s) with
  | O => panic "sync: RUnlock of unlocked RWMutex"
  | S n => putStore (set_mu (mkRWMutex (writer (mu s)) n) s) ;; emit EvRUnlock
  end.

(** ** Channels *)

(** [make(chan struct{}, n)]: a channel at an address never used before. *)
Definition make_chan (n : nat) : M chan :=
  h ← getHeap;
  let ch := fresh (dom h) in
  putHeap (<[ch := mkChan n 0 false]> h) ;; emit (EvMake ch) ;; mret ch.

(** [select { case ch <- struct{}{}: default: }]: the send goes through when
    the buffer has room, is given up otherwise, and panics on a closed
    channel. *)
Definition try_send (ch : chan) : M unit :=
  h ← getHeap;
  match h !! ch with
  | None => emit (EvSend ch false)
  | Some c =>
      if closed c then panic "send on closed channel"
      else if (buf c <? cap c)%nat
      then putHeap (<[ch := mkChan (cap c) (S (buf c)) false]> h) ;; emit (EvSend ch true)
      else emit (EvSend ch false)
  end.

(** [close(ch)]. *)
Definition close_chan (ch : chan) : M unit :=
  h ← getHeap;
  match h !! ch with
  | None => panic "close of nil channel"
  | Some c =>
      if closed c then panic "close of closed channel"
      else putHeap (<[ch := mkChan (cap c) (buf c) true]> h) ;; emit (EvClose ch)
  end.

(** The [case <-ch:] branch of the streaming loop, tried once: it takes a
    pending signal when there is one and reports whether it did. *)
Definition try_recv (ch : chan) : M bool :=
  h ← getHeap;
  match h !! ch with
  | None => mret false
  | Some c =>
      match buf c with
      | O => mret false
      | S n => putHeap (<[ch := mkChan (cap c) n (closed c)]> h) ;; emit (EvRecv ch) ;; mret true
      end
  end.

(** ** The store's methods *)

Definition set_selections (m : gmap Z Z) (s : Store) : Store :=
  mkStore (mu s) (patients s) (doctors s) (byLogin s) m (subs s).

Definition set_subs (m : gmap Z (gset nat)) (s : Store) : Store :=
  mkStore (mu s) (patients s) (doctors s) (byLogin s) (selections s) m.

(** [s.selections[patientID] = doctorID] *)
Definition assign (patientID doctorID : Z) : M unit :=
  s ← getStore;
  putStore (set_selections (<[patientID := doctorID]> (selections s)) s) ;;
  emit (EvAssign patientID doctorID).

(** [go s.persistSelections()]: the goroutine is started, not run. *)
Definition go_persistSelections : M unit := λ w,
  mkRun [EvGo] (mkWorld (store w) (heap w) (disk w) (S (spawned w))) (Returned tt).

(** [os.ReadFile(s.selectionFile)] followed by [json.Unmarshal]. *)
Definition readSelectionFile : M (option (list Selection)) :=
  d ← getDisk; emit EvReadFile ;; mret (selectionFile d).

(** [os.WriteFile(s.selectionFile, b, 0644)] of the marshalled array; the
    result tells whether the write went through. *)
Definition writeSelectionFile (arr : list Selection) : M bool :=
  d ← getDisk;
  if writable d
  then putDisk (mkDisk (seedFile d) (Some arr) true) ;; emit (EvWriteFile true) ;; mret true
  else emit (EvWriteFile false) ;; mret false.

(** main.go, lines 111-126.  The result is the error, [None] for [nil]. *)
Definition loadSelections : M (option string) :=
  Lock ;;
  defer Unlock (
    f ← readSelectionFile;
    match f with
    | None => mret (Some "read or unmarshal error")
    | Some arr =>
        for_range arr (λ x, assign (PatientID x) (DoctorID x)) ;;
        mret None
    end).

(** main.go, lines 131-134: the array built from the relation.  Go ranges
    over a map in an order of its own choosing: [order] is the order in
    which the entries of [s.selections] come out. *)
Definition snapshot (order : list (Z * Z)) : list Selection :=
  foldl (λ arr '(pid, did), arr ++ [mkSelection pid did]) [] order.

(** main.go, lines 128-137.  Both errors are dropped, as in the source. *)
Definition persistSelections_on (order : list (Z * Z)) : M unit :=
  RLock ;;
  defer RUnlock (
    let arr := snapshot order in
    writeSelectionFile arr ;;
    mret tt).

(** main.go, lines 183-201.  [order] is the order in which the range over
    [s.subs[doctorID]] yields the channels. *)
Definition SelectDoctor_on (order : list chan) (patientID doctorID : Z)
  : M (option string) :=
  Lock ;;
  defer Unlock (
    s ← getStore;
    match patients s !! patientID with
    | None => mret (Some "patient not found")
    | Some _ =>
        match doctors s !! doctorID with
        | None => mret (Some "doctor not found")
        | Some _ =>
            assign patientID doctorID ;;
            go_persistSelections ;;
            for_range order try_send ;;
            mret None
        end
    end).

(** main.go, lines 206-213: the loop of [PatientsOfDoctor] over the
    relation, [ps] being [s.patients]. *)
Definition scan (ps : gmap Z Patient) (doctorID : Z) (order : list (Z * Z))
  : list Patient :=
  foldl (λ res '(pid, did),
           if decide (did = doctorID)
           then match ps !! pid with
                | Some p => res ++ [p]
                | None => res
                end
           else res) [] order.

(** main.go, lines 203-215; [order] as in [snapshot]. *)
Definition PatientsOfDoctor_on (order : list (Z * Z)) (doctorID : Z)
  : M (list Patient) :=
  RLock ;;
  defer RUnlock (
    s ← getStore;
    mret (scan (patients s) doctorID order)).

(** What the [cancel] closure captures. *)
Definition handle : Type := Z * nat.

(** main.go, lines 217-232: the part that runs at the call. *)
Definition Subscribe (doctorID : Z) : M (chan * handle) :=
  Lock ;;
  defer Unlock (
    ch ← make_chan 1;
    s ← getStore;
    (match subs s !! doctorID with
     | None => putStore (set_subs (<[doctorID := ∅]> (subs s)) s)
     | Some _ => mret tt
     end) ;;
    s ← getStore;
    putStore (set_subs (<[doctorID := {[ch]} ∪ subs s !!! doctorID]> (subs s)) s) ;;
    mret (ch, (doctorID, ch))).

(** [delete(s.subs[doctorID], ch)]; deleting from a nil map does nothing. *)
Definition delete_sub (doctorID : Z) (ch : chan) : M unit :=
  s ← getStore;
  match subs s !! doctorID with
  | None => mret tt
  | Some X => putStore (set_subs (<[doctorID := X ∖ {[ch]}]> (subs s)) s)
  end.

(** main.go, lines 225-230: the closure [Subscribe] returns. *)
Definition cancel (h : handle) : M unit :=
  Lock ;;
  defer Unlock (
    delete_sub h.1 h.2 ;;
    close_chan h.2).

(** main.go, lines 78-106: the store built from the seed. *)
Definition directory (s : Seed) : Store :=
  let st := mkStore unlocked ∅ ∅ ∅ ∅ ∅ in
  let st :=
    foldl (λ st p,
             mkStore (mu st)
               (<[Patient_ID p := p]> (patients st))
               (doctors st)
               (<["patient:" +:+ Patient_Login p :=
                    mkLoginEntry "patient" (Patient_ID p) (Patient_Password p)]>
                  (byLogin st))
               (selections st) (subs st))
      st (Seed_Patients s) in
  foldl (λ st d,
           mkStore (mu st)
             (patients st)
             (<[Doctor_ID d := d]> (doctors st))
             (<["doctor:" +:+ Doctor_Login d :=
                  mkLoginEntry "doctor" (Doctor_ID d) (Doctor_Password d)]>
                (byLogin st))
             (selections st)
             (<[Doctor_ID d := ∅]> (subs st)))
    st (Seed_Doctors s).

(** main.go, lines 68-109.  [None] is the error return; the error of
    [loadSelections] is dropped. *)
Definition NewStore (d : Disk) : option World :=
  match seedFile d with
  | None => None
  | Some s => Some (final (loadSelections (mkWorld (directory s) ∅ d 0)))
  end.

(** The canonical iteration orders, and what it is to be an order Go may
    pick. *)
Definition subscribers (w : World) (doctorID : Z) : gset nat :=
  subs (store w) !!! doctorID.

Definition chan_order (w : World) (doctorID : Z) (order : list chan) : Prop :=
  order ≡ₚ elements (subscribers w doctorID).

Definition sel_order (w : World) (order : list (Z * Z)) : Prop :=
  order ≡ₚ map_to_list (selections (store w)).

Definition SelectDoctor (patientID doctorID : Z) : M (option string) := λ w,
  SelectDoctor_on (elements (subscribers w doctorID)) patientID doctorID w.

Definition PatientsOfDoctor (doctorID : Z) : M (list Patient) := λ w,
  PatientsOfDoctor_on (map_to_list (selections (store w))) doctorID w.

Definition persistSelections : M unit := λ w,
  persistSelections_on (map_to_list (selections (store w))) w.

(** ** The worlds the methods lead to *)

Definition with_mu (m : RWMutex) (w : World) : World :=
  mkWorld (set_mu m (store w)) (heap w) (disk w) (spawned w).

Definition with_spawned (n : nat) (w : World) : World :=
  mkWorld (store w) (heap w) (disk w) n.

Definition with_heap (h : gmap nat Chan) (w : World) : World :=
  mkWorld (store w) h (disk w) (spawned w).

(** Every channel the loop will range over is allocated and open. *)
Definition all_open (order : list chan) (w : World) : Prop :=
  ∀ ch, ch ∈ order → ∃ c, heap w !! ch = Some c ∧ closed c = false.

(** The world in which the publish loop of a valid call starts. *)
Definition assigned (pid did : Z) (w : World) : World :=
  mkWorld (set_selections (<[pid := did]> (selections (store w)))
             (set_mu (mkRWMutex true 0) (store w)))
    (heap w) (disk w) (S (spawned w)).

Definition subscribed (did : Z) (w : World) : World :=
  let ch := fresh (dom (heap w)) in
  mkWorld
    (set_subs (<[did := {[ch]} ∪ subscribers w did]> (subs (store w))) (store w))
    (<[ch := mkChan 1 0 false]> (heap w)) (disk w) (spawned w).

(** The world after [delete(s.subs[doctorID], ch)]. *)
Definition removed (did : Z) (ch : chan) (w : World) : World :=
  match subs (store w) !! did with
  | None => w
  | Some X =>
      mkWorld (set_subs (<[did := X ∖ {[ch]}]> (subs (store w))) (store w))
        (heap w) (disk w) (spawned w)
  end.

Definition flushed (order : list (Z * Z)) (w : World) : World :=
  mkWorld (store w) (heap w)
    (if writable (disk w)
     then mkDisk (seedFile (disk w)) (Some (snapshot order)) true
     else disk w)
    (spawned w).

(** The map the loop of [loadSelections] builds from the array. *)
Definition merged (arr : list Selection) (m : gmap Z Z) : gmap Z Z :=
  foldl (λ m x, <[PatientID x := DoctorID x]> m) m arr.

Definition loaded (w : World) : World :=
  match selectionFile (disk w) with
  | None => w
  | Some arr =>
      mkWorld (set_selections (merged arr (selections (store w))) (store w))
        (heap w) (disk w) (spawned w)
  end.

Definition scan_entry (ps : gmap Z Patient) (doctorID : Z) (e : Z * Z)
  : option Patient :=
  if decide (e.2 = doctorID) then ps !! e.1 else None.

Definition gone (ch : chan) (w : World) : Prop :=
  (∀ d, ch ∉ subscribers w d) ∧ ∃ c, heap w !! ch = Some c ∧ closed c = true.

(** ** The running program

    Between two method calls the program is in a world where nobody holds
    the mutex.  An [action] is one thing that happens next: a request runs a
    method, a streaming loop takes its pending signal, a spawned flush gets
    to run.  [issued] is the list of the handles [Subscribe] has returned so
    far, the only ones a [cancel] can be called with. *)

Inductive action :=
| ASelect (order : list chan) (patientID doctorID : Z)
| APatientsOf (order : list (Z * Z)) (doctorID : Z)
| ASubscribe (doctorID : Z)
| ACancel (h : handle)
| ARecv (ch : chan)
| AFlush (order : list (Z * Z)).

Definition perform (a : action) (w : World) : World :=
  match a with
  | ASelect order pid did => final (SelectDoctor_on order pid did w)
  | APatientsOf order did => final (PatientsOfDoctor_on order did w)
  | ASubscribe did => final (Subscribe did w)
  | ACancel h => final (cancel h w)
  | ARecv ch => final (try_recv ch w)
  | AFlush order => final (persistSelections_on order (with_spawned (pred (spawned w)) w))
  end.

Definition issues (a : action) (w : World) : list handle :=
  match a with
  | ASubscribe did =>
      match result (Subscribe did w) with
      | Returned (_, h) => [h]
      | _ => []
      end
  | _ => []
  end.

Definition allowed (issued : list handle) (w : World) (a : action) : Prop :=
  match a with
  | ASelect order _ did => chan_order w did order
  | APatientsOf order _ => sel_order w order
  | ASubscribe _ => True
  | ACancel h => h ∈ issued
  | ARecv _ => True
  | AFlush order => sel_order w order ∧ (0 < spawned w)%nat
  end.

Inductive reachable (issued0 : list handle) (w0 : World)
  : list handle → World → Prop :=
| reach_start : reachable issued0 w0 issued0 w0
| reach_step issued w a :
    reachable issued0 w0 issued w →
    allowed issued w a →
    reachable issued0 w0 (issues a w ++ issued) (perform a w).

(** A burst of calls [SelectDoctor(pid, doctorID)], one per element of
    [calls], each with the order its range over the subscribers took. *)
Definition burst (doctorID : Z) (calls : list (Z * list chan)) (w : World) : World :=
  foldl (λ w '(pid, order), final (SelectDoctor_on order pid doctorID w)) w calls.

(** The number of signals pending on a channel. *)
Definition pending (w : World) (ch : chan) : nat :=
  match heap w !! ch with
  | Some c => buf c
  | None => 0
  end.

(** ** Predicates on worlds *)

(** Every patient is filed under its own id ([st.patients[p.ID] = p]). *)
Definition dir_wf (w : World) : Prop :=
  ∀ k p, patients (store w) !! k = Some p → Patient_ID p = k.

(** Every registered channel is open and is a [make(chan struct{}, 1)]. *)
Definition hub_open (w : World) : Prop :=
  ∀ d ch, ch ∈ subscribers w d →
    ∃ c, heap w !! ch = Some c ∧ closed c = false ∧ cap c = 1%nat ∧ (buf c ≤ 1)%nat.

(** No channel is registered for two doctors. *)
Definition hub_disjoint (w : World) : Prop :=
  ∀ d d' ch, ch ∈ subscribers w d → ch ∈ subscribers w d' → d = d'.

(** Every registered channel has its handle among the issued ones, the
    issued handles name allocated channels, one doctor per channel. *)
Definition handles_wf (issued : list handle) (w : World) : Prop :=
  (∀ d ch, ch ∈ subscribers w d → (d, ch) ∈ issued) ∧
  (∀ d ch, (d, ch) ∈ issued → ch ∈ dom (heap w)) ∧
  (∀ d d' ch, (d, ch) ∈ issued → (d', ch) ∈ issued → d = d').

Definition quiescent (w : World) : Prop := mu (store w) = unlocked.

Record world_inv (issued : list handle) (w : World) : Prop := mkInv {
  inv_mu : quiescent w;
  inv_dir : dir_wf w;
  inv_open : hub_open w;
  inv_handles : handles_wf issued w
}.

(** Referential integrity of the relation. *)
Definition ref_integrity (w : World) : Prop :=
  ∀ pid did, selections (store w) !! pid = Some did →
    is_Some (patients (store w) !! pid) ∧ is_Some (doctors (store w) !! did).

(** The snapshot on disk mentions only ids of the directory of [w]. *)
Definition snapshot_in_directory (d : Disk) (w : World) : Prop :=
  ∀ arr x, selectionFile d = Some arr → x ∈ arr →
    is_Some (patients (store w) !! PatientID x) ∧
    is_Some (doctors (store w) !! DoctorID x).

(** Whether the writer lock is held after a sequence of events. *)
Definition wlocked_after (l : list event) : bool :=
  foldl (λ held e,
           match e with
           | EvLock => true
           | EvUnlock => false
           | _ => held
           end) false l.

Definition is_publish (e : event) : bool :=
  match e with EvSend _ _ => true | _ => false end.

Definition is_file_write (e : event) : bool :=
  match e with EvWriteFile _ => true | _ => false end.

(** An event satisfying [P] happens in [l] while the writer lock is held. *)
Definition under_wlock (P : event → bool) (l : list event) : Prop :=
  ∃ pre e post, l = pre ++ e :: post ∧ P e = true ∧ wlocked_after pre = true.

(** ** Scenario worlds *)

Definition p1 : Patient := mkPatient 1 "p1" "pw" "Ann".
Definition p2 : Patient := mkPatient 2 "p2" "pw" "Bob".
Definition d10 : Doctor := mkDoctor 10 "d1" "pw" "Greg" "House" "" "diag".
Definition d20 : Doctor := mkDoctor 20 "d2" "pw" "Lisa" "Cuddy" "" "endo".
Definition seed0 : Seed := mkSeed [p1; p2] [d10; d20].
Definition disk0 : Disk := mkDisk (Some seed0) None true.
Definition world0 : World :=
  default (mkWorld (mkStore unlocked ∅ ∅ ∅ ∅ ∅) ∅ disk0 0) (NewStore disk0).

(** A stream opens for doctor 10, then patient 1 picks doctor 20. *)
Definition w_sub : World := final (Subscribe 10 world0).
Definition w_sel : World := final (SelectDoctor 1 20 w_sub).

(** Patient 2 picks doctor 10; a stream opens for doctor 20. *)
Definition w_two : World := final (SelectDoctor 2 10 w_sel).
Definition w_both : World := final (Subscribe 20 w_sel).

(** A snapshot left by an earlier run whose seed had a patient 999. *)
Definition disk_stale : Disk :=
  mkDisk (Some seed0) (Some [mkSelection 999 10; mkSelection 1 10]) true.
Definition world_stale : World :=
  default world0 (NewStore disk_stale).

(** ** The rest of the store: login, directory reads (main.go, lines 139-181,
    234-242) *)

Record LoginResp := mkLoginResp {
  LoginResp_Token : string;
  LoginResp_Role : string;
  LoginResp_ID : Z;
  LoginResp_Name : string
}.

(** The zero values Go yields for a missing map key and for [LoginResp{}]. *)
Definition zeroPatient : Patient := mkPatient 0 "" "" "".
Definition zeroDoctor : Doctor := mkDoctor 0 "" "" "" "" "" "".
Definition zeroLoginResp : LoginResp := mkLoginResp "" "" 0 "".

Definition letters : string := "abcdefghijklmnopqrstuvwxyz0123456789".

(** main.go, lines 234-242.  [Intn i] is what the [i]-th call of
    [rand.Intn(len(letters))] returns; [None] is the panic of an index out
    of range. *)
Definition makeToken (Intn : nat → nat) : option string :=
  foldl (λ sb i,
           match sb with
           | None => None
           | Some t =>
               match String.get (Intn i) letters with
               | Some c => Some (t +:+ String c "")
               | None => None
               end
           end) (Some "") (seq 0 24).

(** main.go, lines 139-157.  [Login] takes no lock.  [TrimSpace] stands for
    [strings.TrimSpace]; the result pairs the response with the error.  The
    arguments [role] and [pass] are primed, the fields keep the names. *)
Definition Login (TrimSpace : string → string) (Intn : nat → nat)
    (role' login pass' : string) (s : Store)
  : outcome (LoginResp * option string) :=
  let key := role' +:+ ":" +:+ login in
  match byLogin s !! key with
  | None => Returned (zeroLoginResp, Some "invalid credentials")
  | Some entry =>
      if decide (pass entry ≠ pass')
      then Returned (zeroLoginResp, Some "invalid credentials")
      else
        match makeToken Intn with
        | None => Panicked "index out of range"
        | Some token =>
            let name :=
              if decide (role' = "patient")
              then Patient_Name (default zeroPatient (patients s !! id entry))
              else
                let d := default zeroDoctor (doctors s !! id entry) in
                TrimSpace (Doctor_Last d +:+ " " +:+ Doctor_First d +:+ " "
                             +:+ Doctor_Middle d) in
            Returned (mkLoginResp token (role entry) (id entry) name, None)
        end
  end.

(** main.go, lines 159-164. *)
Definition GetPatient (id : Z) : M (Patient * bool) :=
  RLock ;;
  defer RUnlock (
    s ← getStore;
    match patients s !! id with
    | Some p => mret (p, true)
    | None => mret (zeroPatient, false)
    end).

(** main.go, lines 166-171. *)
Definition GetDoctor (id : Z) : M (Doctor * bool) :=
  RLock ;;
  defer RUnlock (
    s ← getStore;
    match doctors s !! id with
    | Some d => mret (d, true)
    | None => mret (zeroDoctor, false)
    end).

(** main.go, lines 173-181; [order] is the order in which the range over
    [s.doctors] yields its entries. *)
Definition ListDoctors_on (order : list (Z * Doctor)) : M (list Doctor) :=
  RLock ;;
  defer RUnlock (
    mret (foldl (λ out '(_, d), out ++ [d]) [] order)).

Definition doc_order (w : World) (order : list (Z * Doctor)) : Prop :=
  order ≡ₚ map_to_list (doctors (store w)).

(** ** The HTTP handlers (main.go, lines 278-366)

    A handler gets what the transport decoded for it: the [id] that
    [strconv.Atoi] made of the query parameter (0 when it does not parse),
    the method, the body that [json.Decode] gave ([None] when it failed).
    Its result is the status and the body it writes. *)

Inductive Body :=
| BodyError (msg : string)
| BodyPatient (patient : Patient) (selected_doctor : option Doctor)
| BodyDoctor (doctor : Doctor) (pts : list Patient)
| BodyStatusOk.

Record Response := mkResponse {
  resp_status : Z;
  resp_body : Body
}.

(** main.go, lines 278-293. *)
Definition handlePatientMe (id : Z) : M Response :=
  r ← GetPatient id;
  if negb r.2 then mret (mkResponse 404 (BodyError "not found"))
  else
    RLock ;;
    s ← getStore;
    let docID := default 0 (selections s !! Patient_ID r.1) in
    RUnlock ;;
    rd ← GetDoctor docID;
    mret (mkResponse 200
            (BodyPatient r.1 (if (rd.2 : bool) then Some rd.1 else None))).

(** main.go, lines 299-317. *)
Definition handleSelectDoctor (order : list chan) (method : string)
    (decoded : option (Z * Z)) : M Response :=
  if decide (method ≠ "POST")
  then mret (mkResponse 405 (BodyError "method not allowed"))
  else
    match decoded with
    | None => mret (mkResponse 400 (BodyError "bad request"))
    | Some (patientID, doctorID) =>
        err ← SelectDoctor_on order patientID doctorID;
        match err with
        | Some e => mret (mkResponse 400 (BodyError e))
        | None => mret (mkResponse 200 BodyStatusOk)
        end
    end.

(** main.go, lines 319-328. *)
Definition handleDoctor (order : list (Z * Z)) (id : Z) : M Response :=
  rd ← GetDoctor id;
  if negb rd.2 then mret (mkResponse 404 (BodyError "not found"))
  else
    pts ← PatientsOfDoctor_on order id;
    mret (mkResponse 200 (BodyDoctor rd.1 pts)).

(** main.go, lines 330-366, the stream of a doctor.  The handler lives as
    long as its connection, other requests run in between: it is given by
    its start (up to the first flush) and by one turn of its [select],
    [wake] telling which case fired.  What it writes is the list of event
    records. *)
Inductive wake :=
| CtxDone
| ChanReady
| TimerFired.

Definition newline : string := String (Ascii.ascii_of_nat 10) "".

Definition ping_event : string :=
  "event: ping" +:+ newline +:+ "data: ok" +:+ newline +:+ newline.

Definition update_event : string :=
  "event: update" +:+ newline +:+ "data: changed" +:+ newline +:+ newline.

(** Lines 331-348: [inl] is the 404 answer, [inr] the handle the deferred
    [cancel] holds together with what was written. *)
Definition streamStart (id : Z) : M (Response + handle * list string) :=
  rd ← GetDoctor id;
  if negb rd.2
  then mret (inl (mkResponse 404 (BodyError "not found"))
               : Response + handle * list string)
  else
    r ← Subscribe id;
    mret (inr (r.2, [ping_event]) : Response + handle * list string).

(** Lines 350-365, one turn: [true] when the loop goes on.  On [CtxDone]
    the handler returns and the deferred [cancel] runs. *)
Definition streamTurn (h : handle) (k : wake) : M (bool * list string) :=
  match k with
  | CtxDone => cancel h ;; mret (false, [])
  | ChanReady =>
      got ← try_recv h.2;
      if (got : bool) then mret (true, [update_event]) else mret (true, [])
  | TimerFired => mret (true, [ping_event])
  end.

(** The program running beside a stream: any action but the [cancel] of
    the stream's own handle, which only the stream's handler holds. *)
Inductive reachable_beside (h : handle) (issued0 : list handle) (w0 : World)
  : list handle → World → Prop :=
| beside_start : reachable_beside h issued0 w0 issued0 w0
| beside_step issued w a :
    reachable_beside h issued0 w0 issued w →
    allowed issued w a →
    a ≠ ACancel h →
    reachable_beside h issued0 w0 (issues a w ++ issued) (perform a w).

(** Every doctor is filed under its own id ([st.doctors[d.ID] = d]). *)
Definition doctors_wf (w : World) : Prop :=
  ∀ k d, doctors (store w) !! k = Some d → Doctor_ID d = k.

(** Scenario values for the code above. *)
Definition w_load : World :=
  mkWorld (store w_sel) ∅
    (mkDisk None (Some [mkSelection 2 10; mkSelection 2 20]) true) 0.
Definition token0 : string := default "" (makeToken (λ i, (7 * i) `mod` 36)%nat).

(** ** Running the monad *)

#[local] Arguments Nat.ltb : simpl never.
#[local] Arguments fresh : simpl never.
#[local] Arguments dom : simpl never.

Ltac run_M :=
  unfold mbind, mret, M_bind, M_ret, bind, ret, defer, emit, panic, block,
    getStore, getHeap, getDisk, putStore, putHeap, putDisk; cbn.

Lemma write_section {A} (body : M A) (w : World) :
  quiescent w →
  let r := body (with_mu (mkRWMutex true 0) w) in
  mu (store (final r)) = mkRWMutex true 0 →
  result r ≠ Blocked →
  (Lock ;; defer Unlock body) w =
    mkRun (EvLock :: trace r ++ [EvUnlock]) (with_mu unlocked (final r)) (result r).
Proof.
  intros Hq r Hmu Hnb. unfold quiescent in Hq. subst r.
  unfold Lock. run_M. rewrite Hq. run_M.
  change (mkWorld (set_mu (mkRWMutex true 0) (store w)) (heap w) (disk w) (spawned w))
    with (with_mu (mkRWMutex true 0) w) in *.
  destruct (body (with_mu (mkRWMutex true 0) w)) as [t w' res].
  cbn [trace final result] in *.
  destruct res; [| |done]; unfold Unlock; run_M; rewrite Hmu; run_M; reflexivity.
Qed.

Lemma read_section {A} (body : M A) (w : World) :
  writer (mu (store w)) = false →
  let n := readers (mu (store w)) in
  let r := body (with_mu (mkRWMutex false (S n)) w) in
  mu (store (final r)) = mkRWMutex false (S n) →
  result r ≠ Blocked →
  (RLock ;; defer RUnlock body) w =
    mkRun (EvRLock :: trace r ++ [EvRUnlock])
      (with_mu (mkRWMutex false n) (final r)) (result r).
Proof.
  intros Hq n r Hmu Hnb. subst r n.
  unfold RLock. run_M. rewrite Hq. run_M.
  change (mkWorld (set_mu (mkRWMutex false (S (readers (mu (store w))))) (store w))
            (heap w) (disk w) (spawned w))
    with (with_mu (mkRWMutex false (S (readers (mu (store w))))) w) in *.
  destruct (body (with_mu (mkRWMutex false (S (readers (mu (store w))))) w))
    as [t w' res].
  cbn [trace final result] in *.
  destruct res; [| |done]; unfold RUnlock; run_M; rewrite Hmu; run_M; reflexivity.
Qed.

Lemma Lock_blocked {A} (k : M A) (w : World) :
  mu (store w) ≠ unlocked → (Lock ;; k) w = mkRun [] w Blocked.
Proof.
  intros Hq. unfold Lock. run_M.
  destruct (mu (store w)) as [[] [|n]]; run_M; try reflexivity.
  exfalso. by apply Hq.
Qed.

Lemma RLock_blocked {A} (k : M A) (w : World) :
  writer (mu (store w)) = true → (RLock ;; k) w = mkRun [] w Blocked.
Proof. intros Hq. unfold RLock. run_M. rewrite Hq. reflexivity. Qed.

Lemma bind_returned {A B} (m : M A) (f : A → M B) (w : World) (a : A) :
  result (m w) = Returned a →
  (m ≫= f) w =
    mkRun (trace (m w) ++ trace (f a (final (m w))))
      (final (f a (final (m w)))) (result (f a (final (m w)))).
Proof.
  intros H. run_M. destruct (m w) as [t w' res]. cbn in H. subst res.
  cbn [trace final result]. by destruct (f a w').
Qed.

Lemma bind_panicked {A B} (m : M A) (f : A → M B) (w : World) (msg : string) :
  result (m w) = Panicked msg →
  (m ≫= f) w = mkRun (trace (m w)) (final (m w)) (Panicked msg).
Proof.
  intros H. run_M. destruct (m w) as [t w' res]. cbn in H. by subst res.
Qed.

(** ** Channel operations, case by case *)

Lemma try_send_cases (ch : chan) (w : World) :
  (∃ c, heap w !! ch = Some c ∧ closed c = true ∧
        try_send ch w = mkRun [] w (Panicked "send on closed channel")) ∨
  (∃ c, heap w !! ch = Some c ∧ closed c = false ∧ (buf c < cap c)%nat ∧
        try_send ch w =
          mkRun [EvSend ch true]
            (with_heap (<[ch := mkChan (cap c) (S (buf c)) false]> (heap w)) w)
            (Returned tt)) ∨
  ((heap w !! ch = None ∨
    ∃ c, heap w !! ch = Some c ∧ closed c = false ∧ (cap c ≤ buf c)%nat) ∧
   try_send ch w = mkRun [EvSend ch false] w (Returned tt)).
Proof.
  unfold try_send. run_M.
  destruct (heap w !! ch) as [c|] eqn:Hc; cbn.
  - destruct (closed c) eqn:Hcl; cbn.
    + left. exists c. repeat split; done.
    + destruct (Nat.ltb_spec (buf c) (cap c)); cbn.
      * right; left. exists c. repeat split; done.
      * right; right. split; [right; exists c; repeat split; done | reflexivity].
  - right; right. split; [by left | reflexivity].
Qed.

(** ** The publish loop of [SelectDoctor] *)

Section publish.
Implicit Types (order : list nat) (w : World) (ch : nat).

Lemma publish_frame order w :
  store (final (for_range order try_send w)) = store w ∧
  disk (final (for_range order try_send w)) = disk w ∧
  spawned (final (for_range order try_send w)) = spawned w ∧
  result (for_range order try_send w) ≠ Blocked.
Proof.
  revert w. induction order as [|x order IH]; intros w; cbn.
  - done.
  - destruct (try_send_cases x w) as [(c & _ & _ & E)|[(c & _ & _ & _ & E)|[_ E]]].
    + erewrite bind_panicked by (rewrite E; reflexivity). rewrite E. done.
    + erewrite bind_returned by (rewrite E; reflexivity). rewrite E. cbn.
      destruct (IH (with_heap (<[x:=mkChan (cap c) (S (buf c)) false]> (heap w)) w))
        as (? & ? & ? & ?). done.
    + erewrite bind_returned by (rewrite E; reflexivity). rewrite E. cbn.
      apply IH.
Qed.

Lemma publish_trace order w e :
  e ∈ trace (for_range order try_send w) →
  ∃ ch b, e = EvSend ch b ∧ ch ∈ order.
Proof.
  revert w. induction order as [|x order IH]; intros w; cbn.
  - intros H. by apply elem_of_nil in H.
  - destruct (try_send_cases x w) as [(c & _ & _ & E)|[(c & _ & _ & _ & E)|[_ E]]].
    + erewrite bind_panicked by (rewrite E; reflexivity). rewrite E. cbn.
      intros H. by apply elem_of_nil in H.
    + erewrite bind_returned by (rewrite E; reflexivity). rewrite E. cbn.
      intros [->|H]%elem_of_cons.
      * exists x, true. split; [done | left].
      * destruct (IH _ H) as (ch & b & -> & Hin). exists ch, b. split; [done | by right].
    + erewrite bind_returned by (rewrite E; reflexivity). rewrite E. cbn.
      intros [->|H]%elem_of_cons.
      * exists x, false. split; [done | left].
      * destruct (IH _ H) as (ch & b & -> & Hin). exists ch, b. split; [done | by right].
Qed.

Lemma publish_other order w ch :
  ch ∉ order →
  heap (final (for_range order try_send w)) !! ch = heap w !! ch.
Proof.
  revert w. induction order as [|x order IH]; intros w Hni; cbn; [done|].
  apply not_elem_of_cons in Hni as [Hne Hni].
  destruct (try_send_cases x w) as [(c & _ & _ & E)|[(c & _ & _ & _ & E)|[_ E]]].
  - erewrite bind_panicked by (rewrite E; reflexivity). rewrite E. done.
  - erewrite bind_returned by (rewrite E; reflexivity). rewrite E. cbn.
    rewrite IH by done. cbn. by rewrite lookup_insert_ne.
  - erewrite bind_returned by (rewrite E; reflexivity). rewrite E. cbn.
    by apply IH.
Qed.

Lemma publish_chan order w ch c :
  heap w !! ch = Some c →
  ∃ c', heap (final (for_range order try_send w)) !! ch = Some c' ∧
        cap c' = cap c ∧ closed c' = closed c ∧
        (buf c ≤ buf c')%nat ∧ (buf c' ≤ buf c `max` cap c)%nat.
Proof.
  revert w c. induction order as [|x order IH]; intros w c Hc; cbn.
  - exists c. repeat split; [done | lia..].
  - destruct (try_send_cases x w) as [(cx & _ & _ & E)|[(cx & Hx & Hop & Hlt & E)|[_ E]]].
    + erewrite bind_panicked by (rewrite E; reflexivity). rewrite E. cbn.
      exists c. repeat split; [done | lia..].
    + erewrite bind_returned by (rewrite E; reflexivity). rewrite E. cbn.
      destruct (decide (x = ch)) as [->|Hne].
      * assert (cx = c) as -> by congruence.
        edestruct (IH (with_heap (<[ch:=mkChan (cap c) (S (buf c)) false]> (heap w)) w))
          as (c' & Hc' & Hcap & Hcl & Hlo & Hhi).
        { cbn. apply lookup_insert_eq. }
        cbn in *. exists c'. repeat split; [done | done | congruence | lia..].
      * apply IH. cbn. by rewrite lookup_insert_ne.
    + erewrite bind_returned by (rewrite E; reflexivity). rewrite E. cbn.
      by apply IH.
Qed.

Lemma try_send_keeps_open order w x :
  all_open order w → all_open order (final (try_send x w)).
Proof.
  intros Hop.
  destruct (try_send_cases x w) as [(cx & _ & _ & E)|[(cx & Hx & _ & _ & E)|[_ E]]];
    rewrite E; cbn; try done.
  intros ch Hin. cbn. destruct (decide (x = ch)) as [->|Hne].
  - rewrite lookup_insert_eq. by eexists.
  - rewrite lookup_insert_ne by done. by apply Hop.
Qed.

Lemma all_open_tail order w x : all_open (x :: order) w → all_open order w.
Proof. intros Hop ch Hin. apply Hop. by right. Qed.

Lemma publish_ok order w :
  all_open order w → result (for_range order try_send w) = Returned tt.
Proof.
  revert w. induction order as [|x order IH]; intros w Hop; cbn; [done|].
  pose proof (try_send_keeps_open order w x (all_open_tail _ _ _ Hop)) as Hnext.
  destruct (Hop x) as (c0 & Hc0 & Hcl0); [left|].
  destruct (try_send_cases x w) as [(cx & Hx & Hcl & E)|[(cx & Hx & _ & Hlt & E)|[_ E]]].
  - congruence.
  - erewrite bind_returned by (rewrite E; reflexivity). apply IH, Hnext.
  - erewrite bind_returned by (rewrite E; reflexivity). apply IH, Hnext.
Qed.

Lemma publish_delivers order w ch c :
  all_open order w → ch ∈ order → heap w !! ch = Some c →
  ∃ c', heap (final (for_range order try_send w)) !! ch = Some c' ∧
        (S (buf c) `min` cap c ≤ buf c')%nat.
Proof.
  revert w c. induction order as [|x order IH]; intros w c Hop Hin Hc.
  { by apply elem_of_nil in Hin. }
  pose proof (try_send_keeps_open order w x (all_open_tail _ _ _ Hop)) as Hnext.
  destruct (Hop x) as (c0 & Hc0 & Hcl0); [left|].
  cbn.
  destruct (try_send_cases x w) as [(cx & Hx & Hcl & E)|[(cx & Hx & _ & Hlt & E)|[Hx E]]].
  - congruence.
  - erewrite bind_returned by (rewrite E; reflexivity). cbn.
    rewrite E in Hnext |- *. cbn in Hnext |- *.
    destruct (decide (x = ch)) as [->|Hne].
    + assert (cx = c) as -> by congruence.
      edestruct (publish_chan order
                   (with_heap (<[ch:=mkChan (cap c) (S (buf c)) false]> (heap w)) w) ch)
        as (c' & Hc' & _ & _ & Hlo & _).
      { cbn. apply lookup_insert_eq. }
      cbn in Hlo. exists c'. split; [done | destruct (cap c); lia].
    + apply IH; [done | | by cbn; rewrite lookup_insert_ne].
      by apply elem_of_cons in Hin as [->|Hin].
  - erewrite bind_returned by (rewrite E; reflexivity). cbn.
    rewrite E in Hnext |- *. cbn in Hnext |- *.
    destruct (decide (x = ch)) as [->|Hne].
    + destruct Hx as [Hx|(cx & Hx & _ & Hfull)]; [congruence|].
      assert (cx = c) as -> by congruence.
      destruct (publish_chan order w ch c Hc) as (c' & Hc' & _ & _ & Hlo & _).
      exists c'. split; [done | destruct (cap c); lia].
    + apply IH; [done | | done].
      by apply elem_of_cons in Hin as [->|Hin].
Qed.
End publish.

(** ** [SelectDoctor], path by path *)

Lemma with_mu_unlocked_id (w : World) (m : RWMutex) :
  quiescent w → with_mu unlocked (with_mu m w) = w.
Proof.
  unfold quiescent. destruct w as [[m0 ps ds bl sel sb] h d n]. cbn.
  intros ->. reflexivity.
Qed.

Lemma SelectDoctor_unknown_patient order pid did w :
  quiescent w → patients (store w) !! pid = None →
  SelectDoctor_on order pid did w =
    mkRun [EvLock; EvUnlock] w (Returned (Some "patient not found")).
Proof.
  intros Hq Hp. unfold SelectDoctor_on.
  rewrite write_section; try done; run_M; rewrite Hp; cbn; try done.
  by rewrite (with_mu_unlocked_id w).
Qed.

Lemma SelectDoctor_unknown_doctor order pid did w p :
  quiescent w → patients (store w) !! pid = Some p →
  doctors (store w) !! did = None →
  SelectDoctor_on order pid did w =
    mkRun [EvLock; EvUnlock] w (Returned (Some "doctor not found")).
Proof.
  intros Hq Hp Hd. unfold SelectDoctor_on.
  rewrite write_section; try done; run_M; rewrite Hp, Hd; cbn; try done.
  by rewrite (with_mu_unlocked_id w).
Qed.

Lemma SelectDoctor_known order pid did w p d :
  quiescent w → patients (store w) !! pid = Some p →
  doctors (store w) !! did = Some d →
  SelectDoctor_on order pid did w =
    mkRun
      (EvLock :: EvAssign pid did :: EvGo ::
         trace (for_range order try_send (assigned pid did w)) ++ [EvUnlock])
      (with_mu unlocked (final (for_range order try_send (assigned pid did w))))
      match result (for_range order try_send (assigned pid did w)) with
      | Returned _ => Returned None
      | Panicked msg => Panicked msg
      | Blocked => Blocked
      end.
Proof.
  intros Hq Hp Hd. unfold SelectDoctor_on.
  destruct (publish_frame order (assigned pid did w)) as (Hst & _ & _ & Hnb).
  rewrite write_section; try done;
    unfold assign, go_persistSelections; run_M; rewrite Hp, Hd; cbn;
    fold (assigned pid did w).
  - destruct (for_range order try_send (assigned pid did w)) as [t w' [a|msg|]];
      cbn in *; [by rewrite app_nil_r | done | done].
  - destruct (for_range order try_send (assigned pid did w)) as [t w' [a|msg|]];
      cbn in *; by rewrite Hst.
  - destruct (for_range order try_send (assigned pid did w)) as [t w' [a|msg|]];
      cbn in *; done.
Qed.

Lemma SelectDoctor_cases order pid did w :
  (¬ quiescent w ∧ SelectDoctor_on order pid did w = mkRun [] w Blocked) ∨
  (quiescent w ∧
   (patients (store w) !! pid = None ∨ doctors (store w) !! did = None) ∧
   ∃ err, SelectDoctor_on order pid did w =
            mkRun [EvLock; EvUnlock] w (Returned (Some err))) ∨
  (quiescent w ∧ is_Some (patients (store w) !! pid) ∧
   is_Some (doctors (store w) !! did) ∧
   SelectDoctor_on order pid did w =
     mkRun
       (EvLock :: EvAssign pid did :: EvGo ::
          trace (for_range order try_send (assigned pid did w)) ++ [EvUnlock])
       (with_mu unlocked (final (for_range order try_send (assigned pid did w))))
       match result (for_range order try_send (assigned pid did w)) with
       | Returned _ => Returned None
       | Panicked msg => Panicked msg
       | Blocked => Blocked
       end).
Proof.
  destruct (decide (mu (store w) = unlocked)) as [Hq|Hq].
  - right. destruct (patients (store w) !! pid) as [p|] eqn:Hp.
    + destruct (doctors (store w) !! did) as [d|] eqn:Hd.
      * right. repeat split; [done | by eexists | by eexists |].
        by eapply SelectDoctor_known.
      * left. repeat split; [done | by right |]. eexists.
        by eapply SelectDoctor_unknown_doctor.
    + left. repeat split; [done | by left |]. eexists.
      by eapply SelectDoctor_unknown_patient.
  - left. split; [done|]. unfold SelectDoctor_on. by apply Lock_blocked.
Qed.

(** ** [Subscribe], [cancel] and the consumer's receive *)

Lemma Subscribe_quiescent did w :
  quiescent w →
  Subscribe did w =
    mkRun [EvLock; EvMake (fresh (dom (heap w))); EvUnlock] (subscribed did w)
      (Returned (fresh (dom (heap w)), (did, fresh (dom (heap w))))).
Proof.
  intros Hq. unfold Subscribe.
  rewrite write_section; try done; unfold make_chan; run_M.
  - destruct w as [[m ps ds bl sel sb] h d n]. unfold quiescent in Hq.
    cbn in *. subst m. unfold subscribed, subscribers, with_mu. cbn.
    destruct (sb !! did) as [X|] eqn:HX; cbn.
    + reflexivity.
    + rewrite lookup_total_insert_eq, insert_insert_eq.
      rewrite (lookup_total_alt sb), HX. reflexivity.
  - destruct (subs (store w) !! did); reflexivity.
  - destruct (subs (store w) !! did); done.
Qed.

Lemma Subscribe_blocked did w :
  ¬ quiescent w → Subscribe did w = mkRun [] w Blocked.
Proof. intros Hq. unfold Subscribe. by apply Lock_blocked. Qed.

Lemma cancel_cases did ch w :
  quiescent w →
  (∃ c, heap w !! ch = Some c ∧ closed c = false ∧
        cancel (did, ch) w =
          mkRun [EvLock; EvClose ch; EvUnlock]
            (with_heap (<[ch := mkChan (cap c) (buf c) true]> (heap w))
               (removed did ch w))
            (Returned tt)) ∨
  (∃ msg, (heap w !! ch = None ∨ ∃ c, heap w !! ch = Some c ∧ closed c = true) ∧
          (is_Some (heap w !! ch) → msg = "close of closed channel") ∧
          cancel (did, ch) w =
            mkRun [EvLock; EvUnlock] (removed did ch w) (Panicked msg)).
Proof.
  intros Hq. unfold cancel.
  destruct w as [[m ps ds bl sel sb] h d n]. unfold quiescent in Hq.
  cbn in *. subst m.
  destruct (h !! ch) as [c|] eqn:Hc; [destruct (closed c) eqn:Hcl|].
  - right. exists "close of closed channel". split; [right; by exists c|].
    split; [done|].
    rewrite write_section; try done; unfold delete_sub, close_chan, removed;
      run_M; destruct (sb !! did); cbn; rewrite Hc; cbn; rewrite Hcl; done.
  - left. exists c. repeat split; try done.
    rewrite write_section; try done; unfold delete_sub, close_chan, removed;
      run_M; destruct (sb !! did); cbn; rewrite Hc; cbn; rewrite Hcl; done.
  - right. exists "close of nil channel". split; [by left|].
    split; [by intros [? ?]|].
    rewrite write_section; try done; unfold delete_sub, close_chan, removed;
      run_M; destruct (sb !! did); cbn; rewrite Hc; done.
Qed.

Lemma cancel_blocked h w :
  ¬ quiescent w → cancel h w = mkRun [] w Blocked.
Proof. intros Hq. unfold cancel. by apply Lock_blocked. Qed.

Lemma subscribers_removed did ch w d :
  subscribers (removed did ch w) d =
    if decide (d = did) then subscribers w did ∖ {[ch]} else subscribers w d.
Proof.
  unfold removed, subscribers.
  destruct (subs (store w) !! did) as [X|] eqn:HX; cbn.
  - case_decide as Hd.
    + subst d. rewrite lookup_total_insert_eq.
      by rewrite (lookup_total_alt (subs (store w))), HX.
    + by rewrite lookup_total_insert_ne.
  - case_decide as Hd; [|done]. subst d.
    rewrite (lookup_total_alt (subs (store w))), HX. cbn. set_solver.
Qed.

Lemma subscribers_subscribed did w d :
  subscribers (subscribed did w) d =
    if decide (d = did) then {[fresh (dom (heap w))]} ∪ subscribers w did
    else subscribers w d.
Proof.
  unfold subscribed, subscribers. cbn. case_decide as Hd.
  - subst d. by rewrite lookup_total_insert_eq.
  - by rewrite lookup_total_insert_ne.
Qed.

Lemma try_recv_cases ch w :
  (∃ c n, heap w !! ch = Some c ∧ buf c = S n ∧
          try_recv ch w =
            mkRun [EvRecv ch]
              (with_heap (<[ch := mkChan (cap c) n (closed c)]> (heap w)) w)
              (Returned true)) ∨
  try_recv ch w = mkRun [] w (Returned false).
Proof.
  unfold try_recv. run_M.
  destruct (heap w !! ch) as [c|] eqn:Hc; cbn; [|by right].
  destruct (buf c) as [|n] eqn:Hb; cbn; [by right|].
  left. exists c, n. done.
Qed.

(** ** Reading the relation, flushing it, loading it *)

Lemma with_mu_readers_id (w : World) :
  writer (mu (store w)) = false →
  with_mu (mkRWMutex false (readers (mu (store w)))) w = w.
Proof.
  destruct w as [[[wr n] ps ds bl sel sb] h d k]. cbn. intros ->. reflexivity.
Qed.

Lemma persistSelections_run order w :
  writer (mu (store w)) = false →
  persistSelections_on order w =
    mkRun [EvRLock; EvWriteFile (writable (disk w)); EvRUnlock]
      (flushed order w) (Returned tt).
Proof.
  intros Hq. unfold persistSelections_on.
  rewrite read_section.
  - unfold writeSelectionFile, flushed. run_M.
    destruct w as [[[wr n] ps ds bl sel sb] h [sf sl wb] k]. cbn in *.
    subst wr. by destruct wb.
  - done.
  - unfold writeSelectionFile. run_M. by destruct (writable (disk w)).
  - unfold writeSelectionFile. run_M. by destruct (writable (disk w)).
Qed.

Lemma persistSelections_blocked order w :
  writer (mu (store w)) = true →
  persistSelections_on order w = mkRun [] w Blocked.
Proof. intros Hq. unfold persistSelections_on. by apply RLock_blocked. Qed.

Lemma PatientsOfDoctor_run order did w :
  writer (mu (store w)) = false →
  PatientsOfDoctor_on order did w =
    mkRun [EvRLock; EvRUnlock] w (Returned (scan (patients (store w)) did order)).
Proof.
  intros Hq. unfold PatientsOfDoctor_on.
  rewrite read_section; [|done|done|done]. run_M.
  destruct w as [[[wr n] ps ds bl sel sb] h dk k]. cbn in *. by subst wr.
Qed.

Lemma PatientsOfDoctor_blocked order did w :
  writer (mu (store w)) = true →
  PatientsOfDoctor_on order did w = mkRun [] w Blocked.
Proof. intros Hq. unfold PatientsOfDoctor_on. by apply RLock_blocked. Qed.

Lemma load_loop arr w :
  for_range arr (λ x, assign (PatientID x) (DoctorID x)) w =
    mkRun (map (λ x, EvAssign (PatientID x) (DoctorID x)) arr)
      (mkWorld (set_selections (merged arr (selections (store w))) (store w))
         (heap w) (disk w) (spawned w))
      (Returned tt).
Proof.
  revert w. induction arr as [|x arr IH]; intros w.
  - cbn. run_M. destruct w as [[m ps ds bl sel sb] h d k]. reflexivity.
  - cbn [for_range]. erewrite bind_returned by reflexivity.
    rewrite IH. unfold assign. run_M. reflexivity.
Qed.

Lemma loadSelections_final w :
  quiescent w → final (loadSelections w) = loaded w.
Proof.
  intros Hq. unfold loadSelections, loaded.
  destruct (selectionFile (disk w)) as [arr|] eqn:Hf.
  - rewrite write_section; [|done| |]; unfold readSelectionFile; run_M;
      rewrite Hf; run_M; rewrite load_loop; cbn; try done.
    destruct w as [[m ps ds bl sel sb] h d k]. unfold quiescent in Hq.
    cbn in *. by subst m.
  - rewrite write_section; [|done| |]; unfold readSelectionFile; run_M;
      rewrite Hf; cbn; try done.
    by rewrite (with_mu_unlocked_id w).
Qed.

(** ** Startup *)

Lemma foldl_invariant {A B} (P : A → Prop) (f : A → B → A) (l : list B) (a : A) :
  P a → (∀ a x, P a → P (f a x)) → P (foldl f a l).
Proof.
  intros Ha Hf. revert a Ha. induction l as [|x l IH]; intros a Ha; cbn; auto.
Qed.

Lemma directory_facts (s : Seed) :
  mu (directory s) = unlocked ∧ selections (directory s) = ∅ ∧
  (∀ k p, patients (directory s) !! k = Some p → Patient_ID p = k) ∧
  (∀ d, subs (directory s) !!! d = (∅ : gset nat)).
Proof.
  unfold directory.
  apply (foldl_invariant (λ st, mu st = unlocked ∧ selections st = ∅ ∧
           (∀ k p, patients st !! k = Some p → Patient_ID p = k) ∧
           (∀ d, subs st !!! d = (∅ : gset nat)))).
  - apply (foldl_invariant (λ st, mu st = unlocked ∧ selections st = ∅ ∧
             (∀ k p, patients st !! k = Some p → Patient_ID p = k) ∧
             (∀ d, subs st !!! d = (∅ : gset nat)))).
    + cbn. split; [done|]. split; [done|]. split.
      * intros k p H. by rewrite lookup_empty in H.
      * intros d. by rewrite lookup_total_empty.
    + intros st p (Hm & Hs & Hp & Hsub). cbn.
      split; [done|]. split; [done|]. split; [|done].
      intros k q. rewrite lookup_insert. case_decide; [|by apply Hp].
      intros [= <-]. done.
  - intros st d (Hm & Hs & Hp & Hsub). cbn.
    split; [done|]. split; [done|]. split; [done|].
    intros d'. destruct (decide (Doctor_ID d = d')) as [->|Hne].
    + by rewrite lookup_total_insert_eq.
    + by rewrite lookup_total_insert_ne.
Qed.

Lemma NewStore_world (d : Disk) (w0 : World) :
  NewStore d = Some w0 →
  ∃ s, seedFile d = Some s ∧
       w0 = mkWorld
              (set_selections
                 (match selectionFile d with
                  | Some arr => merged arr ∅
                  | None => ∅
                  end) (directory s))
              ∅ d 0.
Proof.
  unfold NewStore. destruct (seedFile d) as [s|] eqn:Hs; [|done].
  intros [= <-]. exists s. split; [done|].
  destruct (directory_facts s) as (Hm & Hsel & _ & _).
  rewrite loadSelections_final by done. unfold loaded. cbn.
  destruct (selectionFile d); cbn.
  - by rewrite Hsel.
  - rewrite <- Hsel. by destruct (directory s).
Qed.

(** ** The invariant of the running program *)

Lemma world_inv_transfer issued w w' :
  world_inv issued w →
  mu (store w') = unlocked →
  patients (store w') = patients (store w) →
  subs (store w') = subs (store w) →
  (∀ ch c, heap w !! ch = Some c →
     ∃ c', heap w' !! ch = Some c' ∧ cap c' = cap c ∧ closed c' = closed c ∧
           (buf c' ≤ buf c `max` cap c)%nat) →
  world_inv issued w'.
Proof.
  intros [Hq Hdir Hop (Hh1 & Hh2 & Hh3)] Hmu Hps Hsb Hheap.
  assert (∀ d, subscribers w' d = subscribers w d) as Hsubs.
  { intros d. unfold subscribers. by rewrite Hsb. }
  split.
  - done.
  - unfold dir_wf. rewrite Hps. apply Hdir.
  - intros d ch Hin. rewrite Hsubs in Hin.
    destruct (Hop d ch Hin) as (c & Hc & Hcl & Hcap & Hbuf).
    destruct (Hheap ch c Hc) as (c' & Hc' & Hcap' & Hcl' & Hbuf').
    exists c'. repeat split; [done | congruence | congruence | lia].
  - repeat split.
    + intros d ch Hin. rewrite Hsubs in Hin. by apply Hh1.
    + intros d ch Hin. apply Hh2 in Hin. apply elem_of_dom in Hin as [c Hc].
      destruct (Hheap ch c Hc) as (c' & Hc' & _). apply elem_of_dom. by eexists.
    + done.
Qed.

Lemma world_inv_select issued w order pid did :
  world_inv issued w →
  world_inv issued (final (SelectDoctor_on order pid did w)).
Proof.
  intros Hinv.
  destruct (SelectDoctor_cases order pid did w)
    as [[_ E]|[(_ & _ & err & E)|(_ & _ & _ & E)]]; rewrite E; cbn; try done.
  destruct (publish_frame order (assigned pid did w)) as (Hst & _ & _ & _).
  eapply world_inv_transfer; [done | done | | | ]; cbn; try by rewrite Hst.
  intros ch c Hc.
  destruct (publish_chan order (assigned pid did w) ch c Hc)
    as (c' & Hc' & Hcap & Hcl & _ & Hhi).
  exists c'. done.
Qed.

Lemma world_inv_recv issued w ch :
  world_inv issued w → world_inv issued (final (try_recv ch w)).
Proof.
  intros Hinv.
  destruct (try_recv_cases ch w) as [(c & n & Hc & Hb & E)|E]; rewrite E; cbn;
    [|done].
  eapply world_inv_transfer; [done | by apply Hinv | done | done |].
  cbn. intros ch' c' Hc'. destruct (decide (ch = ch')) as [->|Hne].
  - rewrite lookup_insert_eq. eexists. split; [done|]. cbn.
    assert (c' = c) as -> by congruence. repeat split. lia.
  - rewrite lookup_insert_ne by done. exists c'. repeat split; [done | lia].
Qed.

Lemma quiescent_writer w : quiescent w → writer (mu (store w)) = false.
Proof. unfold quiescent. by intros ->. Qed.

Lemma world_inv_flush issued w order n :
  world_inv issued w →
  world_inv issued (final (persistSelections_on order (with_spawned n w))).
Proof.
  intros Hinv. rewrite persistSelections_run.
  - cbn. eapply world_inv_transfer; [done | by apply Hinv | done | done |].
    cbn. intros ch c Hc. exists c. repeat split; [done | lia].
  - cbn. apply quiescent_writer, Hinv.
Qed.

Lemma world_inv_subscribe issued w did :
  world_inv issued w →
  world_inv ((did, fresh (dom (heap w))) :: issued) (final (Subscribe did w)).
Proof.
  intros [Hq Hdir Hop (Hh1 & Hh2 & Hh3)].
  rewrite Subscribe_quiescent by done. cbn.
  pose proof (is_fresh (dom (heap w))) as Hfresh.
  split.
  - done.
  - done.
  - intros d ch. rewrite subscribers_subscribed. cbn. intros Hin.
    assert (ch = fresh (dom (heap w)) ∨ ∃ d', ch ∈ subscribers w d') as [->|[d' Hd']].
    { case_decide; [|right; by eexists]. apply elem_of_union in Hin as [Hin|Hin].
      - left. by apply elem_of_singleton in Hin.
      - right. by eexists. }
    + rewrite lookup_insert_eq. eexists. repeat split. cbn. lia.
    + destruct (Hop d' ch Hd') as (c & Hc & Hrest).
      rewrite lookup_insert_ne; [by exists c|].
      intros <-. apply Hfresh, elem_of_dom. by eexists.
  - repeat split.
    + intros d ch. rewrite subscribers_subscribed. case_decide as Hd.
      * subst d. intros [Hin|Hin]%elem_of_union.
        -- apply elem_of_singleton in Hin as ->. left.
        -- right. by apply Hh1.
      * intros Hin. right. by apply Hh1.
    + intros d ch [[= -> ->]|Hin]%elem_of_cons; cbn; rewrite dom_insert_L.
      * set_solver.
      * apply Hh2 in Hin. set_solver.
    + intros d d' ch [[= -> ->]|Hin]%elem_of_cons [[= ->]|Hin']%elem_of_cons.
      * done.
      * exfalso. by apply Hfresh, (Hh2 d').
      * subst ch. exfalso. by apply Hfresh, (Hh2 d).
      * by eapply Hh3.
Qed.

Lemma world_inv_cancel issued w did ch :
  world_inv issued w → (did, ch) ∈ issued →
  world_inv issued (final (cancel (did, ch) w)).
Proof.
  intros [Hq Hdir Hop (Hh1 & Hh2 & Hh3)] Hin.
  assert (∀ d ch', ch' ∈ subscribers (removed did ch w) d →
            ch' ∈ subscribers w d ∧ ch' ≠ ch) as Hsub.
  { intros d ch'. rewrite subscribers_removed. case_decide as Hd.
    - subst d. set_solver.
    - intros Hin'. split; [done|]. intros ->. apply Hd.
      eapply Hh3; [|done]. by apply Hh1. }
  assert (mu (store (removed did ch w)) = unlocked ∧
          patients (store (removed did ch w)) = patients (store w) ∧
          heap (removed did ch w) = heap w) as (Hmu & Hps & Hhp).
  { unfold removed. by destruct (subs (store w) !! did). }
  destruct (cancel_cases did ch w Hq) as [(c & Hc & Hcl & E)|(msg & _ & _ & E)];
    rewrite E; cbn.
  - split.
    + done.
    + unfold dir_wf. cbn. rewrite Hps. apply Hdir.
    + intros d ch' [Hin' Hne]%Hsub. cbn.
      rewrite lookup_insert_ne by done. by apply Hop in Hin'.
    + repeat split.
      * intros d ch' [Hin' _]%Hsub. by apply Hh1.
      * intros d ch' Hin'. cbn. rewrite dom_insert_L. apply Hh2 in Hin'. set_solver.
      * done.
  - split.
    + done.
    + unfold dir_wf. rewrite Hps. apply Hdir.
    + intros d ch' [Hin' Hne]%Hsub. rewrite Hhp. by apply Hop in Hin'.
    + repeat split.
      * intros d ch' [Hin' _]%Hsub. by apply Hh1.
      * intros d ch' Hin'. rewrite Hhp. by eapply Hh2.
      * done.
Qed.

Lemma world_inv_step issued w a :
  world_inv issued w → allowed issued w a →
  world_inv (issues a w ++ issued) (perform a w).
Proof.
  intros Hinv Hal.
  destruct a as [order pid did|order did|did|[did ch]|ch|order];
    cbn [issues perform app].
  - by apply world_inv_select.
  - rewrite PatientsOfDoctor_run; [done|]. apply quiescent_writer, Hinv.
  - pose proof (world_inv_subscribe issued w did Hinv) as HS.
    rewrite (Subscribe_quiescent did w) in * by apply Hinv.
    cbn [result final app] in *. exact HS.
  - by apply world_inv_cancel.
  - by apply world_inv_recv.
  - by apply world_inv_flush.
Qed.

Lemma world_inv_reachable issued0 w0 issued w :
  world_inv issued0 w0 → reachable issued0 w0 issued w → world_inv issued w.
Proof.
  intros H0 Hr. induction Hr as [|issued w a _ IH Hal]; [done|].
  by apply world_inv_step.
Qed.

Lemma world_inv_start (d : Disk) (w0 : World) :
  NewStore d = Some w0 → world_inv [] w0.
Proof.
  intros (s & Hs & ->)%NewStore_world.
  destruct (directory_facts s) as (Hm & Hsel & Hdir & Hsub).
  assert (∀ d', subscribers
            (mkWorld (set_selections
               match selectionFile d with Some arr => merged arr ∅ | None => ∅ end
               (directory s)) ∅ d 0) d' = ∅) as Hnone.
  { intros d'. unfold subscribers. cbn. apply Hsub. }
  split.
  - done.
  - exact Hdir.
  - intros d' ch. rewrite Hnone. set_solver.
  - repeat split.
    + intros d' ch. rewrite Hnone. set_solver.
    + intros d' ch Hin. by apply elem_of_nil in Hin.
    + intros d' d'' ch Hin. by apply elem_of_nil in Hin.
Qed.

(** Every world the program reaches from its start satisfies the invariant. *)
Lemma program_inv (d : Disk) (w0 : World) issued w :
  NewStore d = Some w0 → reachable [] w0 issued w → world_inv issued w.
Proof.
  intros Hn Hr. eapply world_inv_reachable; [|done]. by eapply world_inv_start.
Qed.

Lemma world_inv_disjoint issued w : world_inv issued w → hub_disjoint w.
Proof.
  intros [_ _ _ (Hh1 & _ & Hh3)] d d' ch Hin Hin'.
  eapply Hh3; by apply Hh1.
Qed.

(** ** A valid call of [SelectDoctor] *)

Lemma chan_order_elem w did order ch :
  chan_order w did order → ch ∈ order ↔ ch ∈ subscribers w did.
Proof. unfold chan_order. intros ->. apply elem_of_elements. Qed.

Lemma hub_open_all_open w did order pid :
  hub_open w → chan_order w did order → all_open order (assigned pid did w).
Proof.
  intros Hop Ho ch Hin. apply (chan_order_elem _ _ _ _ Ho) in Hin.
  destruct (Hop did ch Hin) as (c & Hc & Hcl & _). by exists c.
Qed.

Lemma SelectDoctor_valid order pid did w :
  quiescent w → hub_open w → chan_order w did order →
  is_Some (patients (store w) !! pid) → is_Some (doctors (store w) !! did) →
  result (SelectDoctor_on order pid did w) = Returned None ∧
  store (final (SelectDoctor_on order pid did w)) =
    set_selections (<[pid := did]> (selections (store w))) (store w) ∧
  disk (final (SelectDoctor_on order pid did w)) = disk w ∧
  spawned (final (SelectDoctor_on order pid did w)) = S (spawned w) ∧
  (∀ ch, ch ∉ subscribers w did →
     heap (final (SelectDoctor_on order pid did w)) !! ch = heap w !! ch) ∧
  (∀ ch, ch ∈ subscribers w did →
     ∃ c, heap (final (SelectDoctor_on order pid did w)) !! ch = Some c ∧
          cap c = 1%nat ∧ closed c = false ∧ buf c = 1%nat) ∧
  ∃ sends,
    trace (SelectDoctor_on order pid did w) =
      EvLock :: EvAssign pid did :: EvGo :: sends ++ [EvUnlock] ∧
    ∀ e, e ∈ sends → ∃ ch b, e = EvSend ch b ∧ ch ∈ subscribers w did.
Proof.
  intros Hq Hop Ho [p Hp] [d Hd].
  rewrite (SelectDoctor_known order pid did w p d) by done. cbn.
  pose proof (hub_open_all_open w did order pid Hop Ho) as Hall.
  destruct (publish_frame order (assigned pid did w)) as (Hst & Hdk & Hsp & _).
  rewrite (publish_ok _ _ Hall), Hst, Hdk, Hsp. cbn.
  repeat split.
  - destruct w as [[m ps ds bl sel sb] h dk n]. unfold quiescent in Hq.
    cbn in *. by subst m.
  - intros ch Hni. rewrite publish_other; [done|].
    by rewrite (chan_order_elem _ _ _ _ Ho).
  - intros ch Hin. destruct (Hop did ch Hin) as (c & Hc & Hcl & Hcap & Hbuf).
    destruct (publish_chan order (assigned pid did w) ch c Hc)
      as (c' & Hc' & Hcap' & Hcl' & _ & Hhi).
    destruct (publish_delivers order (assigned pid did w) ch c Hall)
      as (c'' & Hc'' & Hlo); [by apply (chan_order_elem _ _ _ _ Ho) | done |].
    assert (c'' = c') as -> by congruence.
    exists c'. repeat split; [done | congruence | congruence | lia].
  - eexists. split; [done|]. intros e He.
    destruct (publish_trace _ _ _ He) as (ch & b & -> & Hin).
    exists ch, b. split; [done|]. by apply (chan_order_elem _ _ _ _ Ho).
Qed.

(** ** The scan of [PatientsOfDoctor] *)

Lemma scan_from ps did order acc :
  foldl (λ res '(pid, d),
           if decide (d = did)
           then match ps !! pid with
                | Some p => res ++ [p]
                | None => res
                end
           else res) acc order =
    acc ++ omap (scan_entry ps did) order.
Proof.
  revert acc. induction order as [|[pid d] order IH]; intros acc; cbn.
  - by rewrite app_nil_r.
  - rewrite IH. unfold scan_entry at 2. cbn.
    case_decide; [|done]. destruct (ps !! pid); [|done].
    by rewrite <- app_assoc.
Qed.

Lemma scan_omap ps did order :
  scan ps did order = omap (scan_entry ps did) order.
Proof. unfold scan. by rewrite scan_from. Qed.

Lemma elem_of_scan ps did order (sel : gmap Z Z) p :
  order ≡ₚ map_to_list sel →
  p ∈ scan ps did order ↔ ∃ pid, sel !! pid = Some did ∧ ps !! pid = Some p.
Proof.
  intros Ho. rewrite scan_omap, list_elem_of_omap. split.
  - intros ([pid d] & Hin & He). unfold scan_entry in He. cbn in He.
    case_decide; [|done]. subst d. exists pid. split; [|done].
    apply elem_of_map_to_list. by rewrite <- Ho.
  - intros (pid & Hs & Hp). exists (pid, did). split.
    + rewrite Ho. by apply elem_of_map_to_list.
    + unfold scan_entry. cbn. by rewrite decide_True.
Qed.

(** ** The scenario worlds satisfy the invariant *)

Lemma world0_start : NewStore disk0 = Some world0.
Proof. reflexivity. Qed.

Lemma w_sub_inv : world_inv [(10, 0%nat)] w_sub.
Proof.
  apply (world_inv_subscribe [] world0 10), (world_inv_start disk0), world0_start.
Qed.

Lemma w_sel_inv : world_inv [(10, 0%nat)] w_sel.
Proof.
  exact (world_inv_select [(10, 0%nat)] w_sub (elements (subscribers w_sub 20))
           1 20 w_sub_inv).
Qed.

(** ** The claims *)

(** C1.  For a patient and a doctor of the directory, [SelectDoctor] returns
    success, the relation then maps the patient to that doctor,
    [PatientsOfDoctor] of that doctor contains the patient, and
    [PatientsOfDoctor] of any other doctor does not: an earlier selection of
    another doctor is overwritten. *)
Theorem C1_select_assigns order pid did w p d :
  quiescent w → dir_wf w → hub_open w → chan_order w did order →
  patients (store w) !! pid = Some p →
  doctors (store w) !! did = Some d →
  result (SelectDoctor_on order pid did w) = Returned None ∧
  selections (store (final (SelectDoctor_on order pid did w))) !! pid = Some did ∧
  (∀ o, sel_order (final (SelectDoctor_on order pid did w)) o →
     ∃ res, result (PatientsOfDoctor_on o did
                      (final (SelectDoctor_on order pid did w))) = Returned res ∧
            p ∈ res) ∧
  (∀ o d', d' ≠ did → sel_order (final (SelectDoctor_on order pid did w)) o →
     ∃ res, result (PatientsOfDoctor_on o d'
                      (final (SelectDoctor_on order pid did w))) = Returned res ∧
            p ∉ res).
Proof.
  intros Hq Hdir Hop Ho Hp Hd.
  destruct (SelectDoctor_valid order pid did w Hq Hop Ho)
    as (Hres & Hst & _); [by eexists | by eexists |].
  set (w' := final (SelectDoctor_on order pid did w)) in *.
  assert (writer (mu (store w')) = false) as Hw.
  { rewrite Hst. cbn. by apply quiescent_writer. }
  assert (selections (store w') !! pid = Some did) as Hsel.
  { rewrite Hst. cbn. apply lookup_insert_eq. }
  assert (patients (store w') = patients (store w)) as Hps by by rewrite Hst.
  repeat split; [done | done | |].
  - intros o Hso. rewrite PatientsOfDoctor_run by done. cbn.
    eexists. split; [done|]. apply (elem_of_scan _ _ _ _ _ Hso).
    exists pid. by rewrite Hps.
  - intros o d' Hne Hso. rewrite PatientsOfDoctor_run by done. cbn.
    eexists. split; [done|]. rewrite (elem_of_scan _ _ _ _ _ Hso).
    intros (pid' & Hs' & Hp'). rewrite Hps in Hp'.
    assert (pid' = pid) as -> by (rewrite <- (Hdir _ _ Hp'); by apply Hdir).
    congruence.
Qed.

Lemma C1_witness :
  selections (store w_sel) !! 1 = Some 20 ∧
  result (SelectDoctor_on [0%nat] 1 10 w_sel) = Returned None ∧
  selections (store (final (SelectDoctor_on [0%nat] 1 10 w_sel))) !! 1 = Some 10 ∧
  (∀ o, sel_order (final (SelectDoctor_on [0%nat] 1 10 w_sel)) o →
     ∃ res, result (PatientsOfDoctor_on o 10
                      (final (SelectDoctor_on [0%nat] 1 10 w_sel))) = Returned res ∧
            p1 ∈ res) ∧
  (∀ o d', d' ≠ 10 → sel_order (final (SelectDoctor_on [0%nat] 1 10 w_sel)) o →
     ∃ res, result (PatientsOfDoctor_on o d'
                      (final (SelectDoctor_on [0%nat] 1 10 w_sel))) = Returned res ∧
            p1 ∉ res).
Proof.
  split; [reflexivity|].
  apply (C1_select_assigns [0%nat] 1 10 w_sel p1 d10).
  - reflexivity.
  - apply (inv_dir _ _ w_sel_inv).
  - apply (inv_open _ _ w_sel_inv).
  - unfold chan_order. vm_compute. reflexivity.
  - reflexivity.
  - reflexivity.
Defined.

(** C2.  A call of [SelectDoctor] with a patient id or a doctor id that is
    not in the directory returns the matching error, leaves the whole world
    as it was (the relation, every channel, no flush started) and sends
    nothing: its only events are taking and releasing the lock. *)
Theorem C2_select_unknown order pid did w :
  quiescent w →
  patients (store w) !! pid = None ∨ doctors (store w) !! did = None →
  ∃ err,
    result (SelectDoctor_on order pid did w) = Returned (Some err) ∧
    (patients (store w) !! pid = None → err = "patient not found") ∧
    (is_Some (patients (store w) !! pid) → err = "doctor not found") ∧
    final (SelectDoctor_on order pid did w) = w ∧
    trace (SelectDoctor_on order pid did w) = [EvLock; EvUnlock] ∧
    ∀ ch b, EvSend ch b ∉ trace (SelectDoctor_on order pid did w).
Proof.
  intros Hq Hun.
  assert (∀ ch b, EvSend ch b ∉ [EvLock; EvUnlock]) as Hns.
  { intros ch b Hin. repeat (apply elem_of_cons in Hin as [?|Hin]; [done|]).
    by apply elem_of_nil in Hin. }
  destruct (patients (store w) !! pid) as [p|] eqn:Hp.
  - destruct Hun as [?|Hd]; [done|].
    rewrite (SelectDoctor_unknown_doctor order pid did w p) by done. cbn.
    exists "doctor not found". repeat split; done.
  - rewrite (SelectDoctor_unknown_patient order pid did w) by done. cbn.
    exists "patient not found". repeat split; done.
Qed.

Lemma C2_witness :
  (patients (store w_sel) !! 999 = None ∨ doctors (store w_sel) !! 10 = None) ∧
  ∃ err,
    result (SelectDoctor_on [0%nat] 999 10 w_sel) = Returned (Some err) ∧
    (patients (store w_sel) !! 999 = None → err = "patient not found") ∧
    (is_Some (patients (store w_sel) !! 999) → err = "doctor not found") ∧
    final (SelectDoctor_on [0%nat] 999 10 w_sel) = w_sel ∧
    trace (SelectDoctor_on [0%nat] 999 10 w_sel) = [EvLock; EvUnlock] ∧
    ∀ ch b, EvSend ch b ∉ trace (SelectDoctor_on [0%nat] 999 10 w_sel).
Proof.
  split; [left; reflexivity|].
  apply (C2_select_unknown [0%nat] 999 10 w_sel).
  - reflexivity.
  - left. reflexivity.
Defined.

Lemma select_keeps order pid did w :
  quiescent w → hub_open w →
  quiescent (final (SelectDoctor_on order pid did w)) ∧
  hub_open (final (SelectDoctor_on order pid did w)) ∧
  subs (store (final (SelectDoctor_on order pid did w))) = subs (store w) ∧
  patients (store (final (SelectDoctor_on order pid did w))) = patients (store w) ∧
  doctors (store (final (SelectDoctor_on order pid did w))) = doctors (store w).
Proof.
  intros Hq Hop.
  destruct (SelectDoctor_cases order pid did w)
    as [[Hnq _]|[(_ & _ & err & E)|(_ & _ & _ & E)]]; [done | by rewrite E |].
  rewrite E. cbn.
  destruct (publish_frame order (assigned pid did w)) as (Hst & _ & _ & _).
  rewrite Hst. cbn. repeat split; try done.
  intros d ch Hin.
  assert (ch ∈ subscribers w d) as Hin' by (revert Hin; unfold subscribers; cbn; by rewrite Hst).
  destruct (Hop d ch Hin') as (c & Hc & Hcl & Hcap & Hbuf).
  destruct (publish_chan order (assigned pid did w) ch c Hc)
    as (c' & Hc' & Hcap' & Hcl' & _ & Hhi).
  exists c'. cbn. repeat split; [done | congruence | congruence | lia].
Qed.

Lemma burst_pending did ch calls w :
  quiescent w → hub_open w →
  (∀ pid order, (pid, order) ∈ calls →
     is_Some (patients (store w) !! pid) ∧ chan_order w did order) →
  is_Some (doctors (store w) !! did) →
  ch ∈ subscribers w did →
  calls ≠ [] ∨ pending w ch = 1%nat →
  pending (burst did calls w) ch = 1%nat ∧
  ch ∈ subscribers (burst did calls w) did ∧
  quiescent (burst did calls w) ∧ hub_open (burst did calls w).
Proof.
  revert w. induction calls as [|[pid order] calls IH]; intros w Hq Hop Hc Hd Hin Hne.
  - cbn. by destruct Hne.
  - cbn.
    destruct (Hc pid order) as [Hp Ho]; [left|].
    destruct (select_keeps order pid did w Hq Hop) as (Hq' & Hop' & Hsb & Hps & Hds).
    destruct (SelectDoctor_valid order pid did w Hq Hop Ho Hp Hd)
      as (_ & _ & _ & _ & _ & Hdel & _).
    assert (∀ d, subscribers (final (SelectDoctor_on order pid did w)) d =
                 subscribers w d) as Hsubs.
    { intros d'. unfold subscribers. by rewrite Hsb. }
    apply IH; try done.
    + intros pid' order' Hin'. rewrite Hps. unfold chan_order. rewrite Hsubs.
      apply Hc. by right.
    + by rewrite Hds.
    + by rewrite Hsubs.
    + right. destruct (Hdel ch Hin) as (c & Hc' & _ & _ & Hb).
      unfold pending. by rewrite Hc'.
Qed.

(** C3.  A subscriber of doctor D whose channel is registered (open, with
    room for one signal): after a burst of one or more successful
    [SelectDoctor] calls for D, with no receive in between, exactly one
    signal is pending on the channel, be it empty or already full before the
    burst.  The subscriber stays registered. *)
Theorem C3_burst_coalesces did calls w ch :
  quiescent w → hub_open w →
  calls ≠ [] →
  (∀ pid order, (pid, order) ∈ calls →
     is_Some (patients (store w) !! pid) ∧ chan_order w did order) →
  is_Some (doctors (store w) !! did) →
  ch ∈ subscribers w did →
  pending (burst did calls w) ch = 1%nat ∧
  ch ∈ subscribers (burst did calls w) did.
Proof.
  intros Hq Hop Hne Hc Hd Hin.
  destruct (burst_pending did ch calls w) as (H1 & H2 & _); auto.
Qed.

Lemma C3_witness :
  pending w_sub 0%nat = 0%nat ∧
  pending (burst 10 [(1, [0%nat]); (2, [0%nat]); (1, [0%nat])] w_sub) 0%nat = 1%nat ∧
  0%nat ∈ subscribers (burst 10 [(1, [0%nat]); (2, [0%nat]); (1, [0%nat])] w_sub) 10.
Proof.
  split; [reflexivity|].
  apply (C3_burst_coalesces 10 [(1, [0%nat]); (2, [0%nat]); (1, [0%nat])] w_sub 0%nat).
  - reflexivity.
  - apply (inv_open _ _ w_sub_inv).
  - discriminate.
  - intros pid order Hin.
    repeat (apply elem_of_cons in Hin as [[= -> ->]|Hin];
            [split; [eexists; vm_compute; reflexivity
                    | unfold chan_order; vm_compute; reflexivity]|]).
    by apply elem_of_nil in Hin.
  - eexists. vm_compute. reflexivity.
  - vm_compute. reflexivity.
Defined.

Lemma removed_twice did ch w :
  removed did ch (removed did ch w) = removed did ch w.
Proof.
  unfold removed. destruct (subs (store w) !! did) as [X|] eqn:HX; cbn.
  - rewrite lookup_insert_eq, insert_insert_eq.
    replace (X ∖ {[ch]} ∖ {[ch]}) with (X ∖ {[ch]}) by set_solver. done.
  - by rewrite HX.
Qed.

(** C4, as stated, fails: the second call of a [cancel] panics. *)
Lemma C4_counterexample :
  result (Subscribe 10 world0) = Returned (0%nat, (10, 0%nat)) ∧
  result (cancel (10, 0%nat) w_sub) = Returned tt ∧
  result (cancel (10, 0%nat) (final (cancel (10, 0%nat) w_sub))) =
    Panicked "close of closed channel".
Proof. repeat split; reflexivity. Qed.

(** C4, amended.  For a handle whose channel is open, the first call of
    [cancel] returns and takes the channel out of the doctor's set; a second
    call leaves the registry, and the whole world, as the first call left
    it, and it panics with "close of closed channel". *)
Theorem C4_cancel_twice did ch w c :
  quiescent w → heap w !! ch = Some c → closed c = false →
  result (cancel (did, ch) w) = Returned tt ∧
  (ch ∉ subscribers (final (cancel (did, ch) w)) did) ∧
  final (cancel (did, ch) (final (cancel (did, ch) w))) =
    final (cancel (did, ch) w) ∧
  result (cancel (did, ch) (final (cancel (did, ch) w))) =
    Panicked "close of closed channel".
Proof.
  intros Hq Hc Hcl.
  destruct (cancel_cases did ch w Hq)
    as [(c1 & Hc1 & _ & E)|(msg & [Hn|(c1 & Hc1 & Hcl1)] & _ & _)];
    [|congruence..].
  assert (c1 = c) as -> by congruence.
  rewrite E. cbn.
  set (w1 := with_heap (<[ch:=mkChan (cap c) (buf c) true]> (heap w)) (removed did ch w)).
  assert (quiescent w1) as Hq1.
  { unfold w1, removed, quiescent. by destruct (subs (store w) !! did). }
  assert (removed did ch w1 = w1) as Hrm.
  { unfold w1, removed. destruct (subs (store w) !! did) as [X|] eqn:HX; cbn.
    - rewrite lookup_insert_eq, insert_insert_eq.
      replace (X ∖ {[ch]} ∖ {[ch]}) with (X ∖ {[ch]}) by set_solver. done.
    - by rewrite HX. }
  repeat split.
  - change (subscribers w1 did) with (subscribers (removed did ch w) did).
    rewrite subscribers_removed, decide_True by done. set_solver.
  - destruct (cancel_cases did ch w1 Hq1)
      as [(c2 & Hc2 & Hcl2 & _)|(msg & _ & _ & E2)].
    + unfold w1 in Hc2. cbn in Hc2. rewrite lookup_insert_eq in Hc2.
      by injection Hc2 as <-.
    + by rewrite E2, Hrm.
  - destruct (cancel_cases did ch w1 Hq1)
      as [(c2 & Hc2 & Hcl2 & _)|(msg & _ & Hmsg & E2)].
    + unfold w1 in Hc2. cbn in Hc2. rewrite lookup_insert_eq in Hc2.
      by injection Hc2 as <-.
    + rewrite E2. cbn. rewrite Hmsg; [done|].
      unfold w1. cbn. rewrite lookup_insert_eq. by eexists.
Qed.

Lemma C4_witness :
  result (cancel (10, 0%nat) w_sub) = Returned tt ∧
  (0%nat ∉ subscribers (final (cancel (10, 0%nat) w_sub)) 10) ∧
  final (cancel (10, 0%nat) (final (cancel (10, 0%nat) w_sub))) =
    final (cancel (10, 0%nat) w_sub) ∧
  result (cancel (10, 0%nat) (final (cancel (10, 0%nat) w_sub))) =
    Panicked "close of closed channel".
Proof.
  apply (C4_cancel_twice 10 0%nat w_sub (mkChan 1 0 false)); reflexivity.
Defined.

(** ** After [cancel]: the channel is closed and registered nowhere *)

Lemma gone_after_cancel issued w did ch :
  world_inv issued w → (did, ch) ∈ issued →
  gone ch (final (cancel (did, ch) w)).
Proof.
  intros [Hq Hdir Hop (Hh1 & Hh2 & Hh3)] Hin.
  assert (heap (removed did ch w) = heap w) as Hhp.
  { unfold removed. by destruct (subs (store w) !! did). }
  assert (∀ d, ch ∈ subscribers (removed did ch w) d → ch ∈ subscribers w d ∧ d ≠ did)
    as Hsub.
  { intros d. rewrite subscribers_removed. case_decide; [set_solver | done]. }
  destruct (cancel_cases did ch w Hq)
    as [(c & Hc & Hcl & E)|(msg & Hcase & _ & E)]; rewrite E; cbn.
  - split.
    + intros d [Hin' Hne]%Hsub. apply Hne. eapply Hh3; [|done]. by apply Hh1.
    + cbn. rewrite lookup_insert_eq. by eexists.
  - destruct Hcase as [Hn|(c & Hc & Hcl)].
    + apply Hh2, elem_of_dom in Hin as [c Hc]. congruence.
    + split.
      * intros d [Hin' _]%Hsub. destruct (Hop d ch Hin') as (c' & Hc' & Hcl' & _).
        congruence.
      * rewrite Hhp. by exists c.
Qed.

Lemma gone_step issued w a ch :
  world_inv issued w → gone ch w → gone ch (perform a w).
Proof.
  intros Hinv [Hns (c & Hc & Hcl)].
  pose proof (inv_mu _ _ Hinv) as Hq.
  destruct a as [order pid did|order did|did|[did ch']|ch'|order]; cbn.
  - destruct (select_keeps order pid did w Hq (inv_open _ _ Hinv))
      as (_ & _ & Hsb & _ & _).
    split.
    + intros d. unfold subscribers. rewrite Hsb. apply Hns.
    + destruct (SelectDoctor_cases order pid did w)
        as [[_ E]|[(_ & _ & err & E)|(_ & _ & _ & E)]]; rewrite E; cbn;
        [by exists c | by exists c |].
      destruct (publish_chan order (assigned pid did w) ch c Hc)
        as (c' & Hc' & _ & Hcl' & _).
      exists c'. split; [done | congruence].
  - rewrite PatientsOfDoctor_run by by apply quiescent_writer.
    split; [done | by exists c].
  - rewrite Subscribe_quiescent by done. cbn.
    assert (ch ≠ fresh (dom (heap w))) as Hne.
    { intros ->. apply (is_fresh (dom (heap w))), elem_of_dom. by eexists. }
    split.
    + intros d. rewrite subscribers_subscribed. case_decide; [|done].
      specialize (Hns did). set_solver.
    + cbn. rewrite lookup_insert_ne by done. by exists c.
  - assert (∀ d, ch ∉ subscribers (removed did ch' w) d) as Hns'.
    { intros d. rewrite subscribers_removed. case_decide; [|done].
      specialize (Hns did). set_solver. }
    assert (heap (removed did ch' w) = heap w) as Hhp.
    { unfold removed. by destruct (subs (store w) !! did). }
    destruct (cancel_cases did ch' w Hq)
      as [(c' & Hc' & Hcl' & E)|(msg & _ & _ & E)]; rewrite E; cbn.
    + split; [done|]. cbn. destruct (decide (ch' = ch)) as [->|Hne].
      * rewrite lookup_insert_eq. by eexists.
      * rewrite lookup_insert_ne by done. by exists c.
    + split; [done|]. rewrite Hhp. by exists c.
  - destruct (try_recv_cases ch' w) as [(c' & n & Hc' & Hb & E)|E]; rewrite E; cbn.
    + split; [done|]. cbn. destruct (decide (ch' = ch)) as [->|Hne].
      * rewrite lookup_insert_eq. eexists. split; [done|]. cbn. congruence.
      * rewrite lookup_insert_ne by done. by exists c.
    + split; [done | by exists c].
  - rewrite persistSelections_run by by apply quiescent_writer.
    split; [done | by exists c].
Qed.

Lemma gone_reachable issued0 w0 issued w ch :
  world_inv issued0 w0 → gone ch w0 →
  reachable issued0 w0 issued w → gone ch w.
Proof.
  intros Hinv Hg Hr. induction Hr as [|issued w a Hr IH Hal]; [done|].
  apply (gone_step issued); [|done].
  by eapply world_inv_reachable.
Qed.

(** C5.  Once the [cancel] of a subscription of doctor D has run, then in
    every world the program reaches afterwards the channel is not in D's
    set, and a [SelectDoctor] for D does not panic, does not range over the
    channel, sends nothing to it and leaves it as it is. *)
Theorem C5_no_delivery_after_cancel issued0 w0 did ch issued w order pid :
  world_inv issued0 w0 → (did, ch) ∈ issued0 →
  reachable issued0 (final (cancel (did, ch) w0)) issued w →
  chan_order w did order →
  (ch ∉ subscribers w did) ∧
  (ch ∉ order) ∧
  (∀ b, EvSend ch b ∉ trace (SelectDoctor_on order pid did w)) ∧
  (∀ msg, result (SelectDoctor_on order pid did w) ≠ Panicked msg) ∧
  result (SelectDoctor_on order pid did w) ≠ Blocked ∧
  heap (final (SelectDoctor_on order pid did w)) !! ch = heap w !! ch.
Proof.
  intros Hinv0 Hin Hr Ho.
  pose proof (world_inv_cancel _ _ _ _ Hinv0 Hin) as Hinv1.
  pose proof (world_inv_reachable _ _ _ _ Hinv1 Hr) as Hinv.
  pose proof (gone_reachable _ _ _ _ ch Hinv1
                (gone_after_cancel _ _ _ _ Hinv0 Hin) Hr) as [Hns _].
  assert (ch ∉ order) as Hno by (rewrite (chan_order_elem _ _ _ _ Ho); apply Hns).
  split; [apply Hns|]. split; [done|].
  destruct (SelectDoctor_cases order pid did w)
    as [[Hnq _]|[(_ & _ & err & E)|(_ & Hp & Hd & _)]].
  - destruct Hnq. apply Hinv.
  - rewrite E. cbn. repeat split; try done.
    intros b Hb. repeat (apply elem_of_cons in Hb as [?|Hb]; [done|]).
    by apply elem_of_nil in Hb.
  - destruct (SelectDoctor_valid order pid did w (inv_mu _ _ Hinv)
                (inv_open _ _ Hinv) Ho Hp Hd)
      as (Hres & _ & _ & _ & Hoth & _ & sends & Htr & Hsends).
    rewrite Hres, Htr. repeat split; try done.
    + intros b Hb.
      repeat (apply elem_of_cons in Hb as [?|Hb]; [done|]).
      apply elem_of_app in Hb as [Hb|Hb].
      * destruct (Hsends _ Hb) as (ch' & b' & [= <- <-] & Hin'). by apply (Hns did).
      * apply list_elem_of_singleton in Hb. done.
    + apply Hoth, Hns.
Qed.

Lemma C5_witness :
  (0%nat ∉ subscribers (perform (ASubscribe 10) (final (cancel (10, 0%nat) w_sel))) 10) ∧
  (0%nat ∉ [1%nat]) ∧
  (∀ b, EvSend 0%nat b ∉
          trace (SelectDoctor_on [1%nat] 2 10
                   (perform (ASubscribe 10) (final (cancel (10, 0%nat) w_sel))))) ∧
  (∀ msg, result (SelectDoctor_on [1%nat] 2 10
                    (perform (ASubscribe 10) (final (cancel (10, 0%nat) w_sel))))
          ≠ Panicked msg) ∧
  result (SelectDoctor_on [1%nat] 2 10
            (perform (ASubscribe 10) (final (cancel (10, 0%nat) w_sel)))) ≠ Blocked ∧
  heap (final (SelectDoctor_on [1%nat] 2 10
                 (perform (ASubscribe 10) (final (cancel (10, 0%nat) w_sel))))) !! 0%nat =
    heap (perform (ASubscribe 10) (final (cancel (10, 0%nat) w_sel))) !! 0%nat.
Proof.
  apply (C5_no_delivery_after_cancel [(10, 0%nat)] w_sel 10 0%nat
           [(10, 1%nat); (10, 0%nat)]
           (perform (ASubscribe 10) (final (cancel (10, 0%nat) w_sel)))
           [1%nat] 2).
  - exact w_sel_inv.
  - left.
  - apply (reach_step [(10, 0%nat)] (final (cancel (10, 0%nat) w_sel))
             [(10, 0%nat)] (final (cancel (10, 0%nat) w_sel)) (ASubscribe 10)).
    + apply reach_start.
    + exact I.
  - unfold chan_order. vm_compute. reflexivity.
Defined.

(** ** Persisting and reloading *)

Lemma snapshot_map order :
  snapshot order = map (λ e, mkSelection e.1 e.2) order.
Proof.
  unfold snapshot.
  assert (∀ acc, foldl (λ arr '(pid, did), arr ++ [mkSelection pid did]) acc order =
                 acc ++ map (λ e, mkSelection e.1 e.2) order) as H.
  { induction order as [|[pid did] order IH]; intros acc; cbn.
    - by rewrite app_nil_r.
    - rewrite IH. by rewrite <- app_assoc. }
  apply (H []).
Qed.

Lemma merged_snapshot order (m : gmap Z Z) :
  merged (snapshot order) m = foldl (λ m e, <[e.1 := e.2]> m) m order.
Proof.
  rewrite snapshot_map. unfold merged. revert m.
  induction order as [|e order IH]; intros m; cbn; [done|]. apply IH.
Qed.

Lemma foldl_insert_reverse (l : list (Z * Z)) :
  foldl (λ m e, <[e.1 := e.2]> m) (∅ : gmap Z Z) l = list_to_map (reverse l).
Proof.
  induction l as [|[k v] l IH] using rev_ind; [done|].
  rewrite foldl_app, reverse_app. cbn. by rewrite IH.
Qed.

Lemma merged_roundtrip order (sel : gmap Z Z) :
  order ≡ₚ map_to_list sel → merged (snapshot order) ∅ = sel.
Proof.
  intros Ho. rewrite merged_snapshot, foldl_insert_reverse.
  rewrite <- (list_to_map_to_list sel). apply list_to_map_proper.
  - rewrite reverse_Permutation, Ho. apply NoDup_fst_map_to_list.
  - by rewrite reverse_Permutation.
Qed.

(** C6.  A flush that goes through, followed by a fresh start on the disk it
    leaves, gives back the relation: [NewStore] succeeds whenever the seed is
    readable and its relation is the one that was flushed, and so is the
    relation [loadSelections] builds in any store whose map is empty. *)
Theorem C6_persist_load_roundtrip order w :
  writer (mu (store w)) = false → writable (disk w) = true →
  sel_order w order →
  (∀ s, seedFile (disk w) = Some s →
     ∃ w0, NewStore (disk (final (persistSelections_on order w))) = Some w0 ∧
           selections (store w0) = selections (store w)) ∧
  (∀ w', quiescent w' → selections (store w') = ∅ →
     disk w' = disk (final (persistSelections_on order w)) →
     selections (store (final (loadSelections w'))) = selections (store w)).
Proof.
  intros Hw Hwr Ho. rewrite persistSelections_run by done. cbn.
  unfold flushed. rewrite Hwr. cbn. split.
  - intros s Hs.
    destruct (NewStore (mkDisk (seedFile (disk w)) (Some (snapshot order)) true))
      as [w0|] eqn:Hn.
    + exists w0. split; [done|].
      apply NewStore_world in Hn as (s' & _ & ->). cbn.
      by apply merged_roundtrip.
    + unfold NewStore in Hn. cbn in Hn. by rewrite Hs in Hn.
  - intros w' Hq Hempty Hd. rewrite loadSelections_final by done.
    unfold loaded. rewrite Hd. cbn. rewrite Hempty.
    by apply merged_roundtrip.
Qed.


Lemma C6_witness :
  sel_order w_two [(1, 20); (2, 10)] ∧
  (∀ s, seedFile (disk w_two) = Some s →
     ∃ w0, NewStore (disk (final (persistSelections_on [(1, 20); (2, 10)] w_two)))
             = Some w0 ∧
           selections (store w0) = selections (store w_two)) ∧
  (∀ w', quiescent w' → selections (store w') = ∅ →
     disk w' = disk (final (persistSelections_on [(1, 20); (2, 10)] w_two)) →
     selections (store (final (loadSelections w'))) = selections (store w_two)).
Proof.
  assert (sel_order w_two [(1, 20); (2, 10)]) as Ho.
  { unfold sel_order. vm_compute. apply perm_swap. }
  split; [exact Ho|].
  apply (C6_persist_load_roundtrip [(1, 20); (2, 10)] w_two).
  - reflexivity.
  - reflexivity.
  - exact Ho.
Defined.

Lemma w_both_inv : world_inv [(20, 1%nat); (10, 0%nat)] w_both.
Proof. exact (world_inv_subscribe [(10, 0%nat)] w_sel 20 w_sel_inv). Qed.

(** C7.  A successful [SelectDoctor] that moves a patient from another
    doctor: every send of the call goes to a subscriber of the new doctor,
    nothing is sent to a subscriber of the old one, and the channel of every
    subscriber of every doctor other than the new one is left as it was. *)
Theorem C7_only_new_doctor_notified order pid did dold w :
  quiescent w → hub_open w → hub_disjoint w → chan_order w did order →
  is_Some (patients (store w) !! pid) → is_Some (doctors (store w) !! did) →
  selections (store w) !! pid = Some dold → dold ≠ did →
  result (SelectDoctor_on order pid did w) = Returned None ∧
  (∀ ch b, EvSend ch b ∈ trace (SelectDoctor_on order pid did w) →
     ch ∈ subscribers w did) ∧
  (∀ ch b, ch ∈ subscribers w dold →
     EvSend ch b ∉ trace (SelectDoctor_on order pid did w)) ∧
  (∀ d ch, d ≠ did → ch ∈ subscribers w d →
     heap (final (SelectDoctor_on order pid did w)) !! ch = heap w !! ch).
Proof.
  intros Hq Hop Hdis Ho Hp Hd Hold Hne.
  destruct (SelectDoctor_valid order pid did w Hq Hop Ho Hp Hd)
    as (Hres & _ & _ & _ & Hoth & _ & sends & Htr & Hsends).
  assert (∀ ch b, EvSend ch b ∈ trace (SelectDoctor_on order pid did w) →
            ch ∈ subscribers w did) as Hto.
  { intros ch b. rewrite Htr. intros Hb.
    repeat (apply elem_of_cons in Hb as [?|Hb]; [done|]).
    apply elem_of_app in Hb as [Hb|Hb].
    - by destruct (Hsends _ Hb) as (ch' & b' & [= <- <-] & Hin').
    - by apply list_elem_of_singleton in Hb. }
  split; [done|]. split; [done|]. split.
  - intros ch b Hin Hsent. apply Hne. eapply Hdis; [done|]. by eapply Hto.
  - intros d ch Hd' Hin. apply Hoth. intros Hin'. apply Hd'. by eapply Hdis.
Qed.

Lemma C7_witness :
  selections (store w_both) !! 1 = Some 20 ∧
  result (SelectDoctor_on [0%nat] 1 10 w_both) = Returned None ∧
  (∀ ch b, EvSend ch b ∈ trace (SelectDoctor_on [0%nat] 1 10 w_both) →
     ch ∈ subscribers w_both 10) ∧
  (∀ ch b, ch ∈ subscribers w_both 20 →
     EvSend ch b ∉ trace (SelectDoctor_on [0%nat] 1 10 w_both)) ∧
  (∀ d ch, d ≠ 10 → ch ∈ subscribers w_both d →
     heap (final (SelectDoctor_on [0%nat] 1 10 w_both)) !! ch = heap w_both !! ch).
Proof.
  split; [reflexivity|].
  apply (C7_only_new_doctor_notified [0%nat] 1 10 20 w_both).
  - reflexivity.
  - apply (inv_open _ _ w_both_inv).
  - apply (world_inv_disjoint _ _ w_both_inv).
  - unfold chan_order. vm_compute. reflexivity.
  - eexists. vm_compute. reflexivity.
  - eexists. vm_compute. reflexivity.
  - reflexivity.
  - discriminate.
Defined.

(** ** Referential integrity *)

Lemma merged_lookup arr (m : gmap Z Z) k v :
  merged arr m !! k = Some v →
  m !! k = Some v ∨ ∃ x, x ∈ arr ∧ PatientID x = k ∧ DoctorID x = v.
Proof.
  unfold merged. revert m. induction arr as [|x arr IH]; intros m; cbn.
  - by left.
  - intros [Hm|(y & Hy & Hk & Hv)]%IH.
    + rewrite lookup_insert in Hm. case_decide as Hx.
      * injection Hm as <-. right. exists x. split; [left | done].
      * by left.
    + right. exists y. split; [by right | done].
Qed.

Lemma perform_directory issued w a :
  world_inv issued w →
  patients (store (perform a w)) = patients (store w) ∧
  doctors (store (perform a w)) = doctors (store w) ∧
  (selections (store (perform a w)) = selections (store w) ∨
   ∃ pid did, is_Some (patients (store w) !! pid) ∧
              is_Some (doctors (store w) !! did) ∧
              selections (store (perform a w)) =
                <[pid := did]> (selections (store w))).
Proof.
  intros Hinv. pose proof (inv_mu _ _ Hinv) as Hq.
  destruct a as [order pid did|order did|did|[did ch]|ch|order]; cbn [perform].
  - destruct (SelectDoctor_cases order pid did w)
      as [[_ E]|[(_ & _ & err & E)|(_ & Hp & Hd & E)]]; rewrite E; cbn;
      [by auto | by auto |].
    destruct (publish_frame order (assigned pid did w)) as (Hst & _ & _ & _).
    rewrite Hst. cbn. split; [done|]. split; [done|]. right. by exists pid, did.
  - rewrite PatientsOfDoctor_run by by apply quiescent_writer. by auto.
  - rewrite Subscribe_quiescent by done. cbn. by auto.
  - destruct (cancel_cases did ch w Hq)
      as [(c & _ & _ & E)|(msg & _ & _ & E)]; rewrite E; cbn;
      unfold removed; destruct (subs (store w) !! did); cbn; by auto.
  - destruct (try_recv_cases ch w) as [(c & n & _ & _ & E)|E]; rewrite E; cbn;
      by auto.
  - rewrite persistSelections_run by by apply quiescent_writer. cbn. by auto.
Qed.

Lemma ref_integrity_step issued w a :
  world_inv issued w → ref_integrity w → ref_integrity (perform a w).
Proof.
  intros Hinv Hri.
  destruct (perform_directory issued w a Hinv) as (Hps & Hds & Hsel).
  intros pid did. rewrite Hps, Hds.
  destruct Hsel as [->|(pid' & did' & Hp & Hd & ->)]; [apply Hri|].
  rewrite lookup_insert. case_decide as Hx.
  - subst pid'. by intros [= <-].
  - apply Hri.
Qed.

(** C8, as stated, fails: a snapshot may name a patient the seed does not
    have, and the startup load copies it as it is. *)
Lemma C8_counterexample :
  NewStore disk_stale = Some world_stale ∧
  reachable [] world_stale [] world_stale ∧
  selections (store world_stale) !! 999 = Some 10 ∧
  patients (store world_stale) !! 999 = None ∧
  ¬ ref_integrity world_stale.
Proof.
  split; [reflexivity|]. split; [apply reach_start|].
  split; [reflexivity|]. split; [reflexivity|].
  intros Hri. destruct (Hri 999 10) as [[p Hp] _]; [reflexivity|].
  discriminate Hp.
Qed.

(** C8, amended.  [SelectDoctor] checks both ids when it writes, the startup
    load checks nothing: when the snapshot read at startup names only ids of
    the directory (or there is none), every key of the relation is a patient
    of the directory and every value a doctor of it, in every world the
    program reaches; the directory itself never changes. *)
Theorem C8_integrity_given_valid_snapshot d w0 issued w :
  NewStore d = Some w0 → snapshot_in_directory d w0 →
  reachable [] w0 issued w →
  ref_integrity w ∧
  patients (store w) = patients (store w0) ∧
  doctors (store w) = doctors (store w0).
Proof.
  intros Hn Hsnap Hr.
  pose proof (world_inv_start d w0 Hn) as Hinv0.
  assert (ref_integrity w0) as Hri0.
  { destruct (NewStore_world d w0 Hn) as (s & Hs & Hw0).
    intros pid did Hsel. rewrite Hw0 in Hsel. cbn in Hsel.
    destruct (selectionFile d) as [arr|] eqn:Hf.
    - apply merged_lookup in Hsel as [Hsel|(x & Hx & <- & <-)].
      + by rewrite lookup_empty in Hsel.
      + by apply (Hsnap arr).
    - by rewrite lookup_empty in Hsel. }
  induction Hr as [|issued w a Hr IH Hal]; [done|].
  destruct IH as (Hri & Hps & Hds).
  pose proof (world_inv_reachable _ _ _ _ Hinv0 Hr) as Hinv.
  destruct (perform_directory issued w a Hinv) as (Hps' & Hds' & _).
  split; [by eapply ref_integrity_step|]. split; congruence.
Qed.

Lemma C8_witness :
  NewStore disk0 = Some world0 ∧
  ref_integrity (perform (ASelect [] 1 20) world0) ∧
  patients (store (perform (ASelect [] 1 20) world0)) = patients (store world0) ∧
  doctors (store (perform (ASelect [] 1 20) world0)) = doctors (store world0).
Proof.
  split; [reflexivity|].
  apply (C8_integrity_given_valid_snapshot disk0 world0 [] (perform (ASelect [] 1 20) world0)).
  - reflexivity.
  - intros arr x Hf. discriminate Hf.
  - apply (reach_step [] world0 [] world0 (ASelect [] 1 20)).
    + apply reach_start.
    + unfold allowed, chan_order. vm_compute. reflexivity.
Defined.

(** ** What runs under the writer lock *)

Lemma wlocked_kept (l : list event) :
  (∀ e, e ∈ l → e ≠ EvUnlock) →
  foldl (λ held e, match e with
                   | EvLock => true
                   | EvUnlock => false
                   | _ => held
                   end) true l = true.
Proof.
  induction l as [|x l IH]; intros Hl; cbn; [done|].
  assert (x ≠ EvUnlock) as Hx by (apply Hl; left).
  assert (∀ e, e ∈ l → e ≠ EvUnlock) as Hl' by (intros e He; apply Hl; by right).
  destruct x; try done; by apply IH.
Qed.

Lemma publish_trace_complete order w ch :
  all_open order w → ch ∈ order →
  ∃ b, EvSend ch b ∈ trace (for_range order try_send w).
Proof.
  revert w. induction order as [|x order IH]; intros w Hop Hin.
  { by apply elem_of_nil in Hin. }
  pose proof (try_send_keeps_open order w x (all_open_tail _ _ _ Hop)) as Hnext.
  destruct (Hop x) as (c0 & Hc0 & Hcl0); [left|].
  cbn [for_range].
  destruct (try_send_cases x w) as [(cx & Hx & Hcl & E)|[(cx & Hx & _ & Hlt & E)|[Hx E]]].
  - congruence.
  - erewrite bind_returned by (rewrite E; reflexivity). rewrite E in Hnext |- *.
    cbn [trace final] in *. apply elem_of_cons in Hin as [->|Hin].
    + exists true. left.
    + destruct (IH _ Hnext Hin) as [b Hb]. exists b. by right.
  - erewrite bind_returned by (rewrite E; reflexivity). rewrite E in Hnext |- *.
    cbn [trace final] in *. apply elem_of_cons in Hin as [->|Hin].
    + exists false. left.
    + destruct (IH _ Hnext Hin) as [b Hb]. exists b. by right.
Qed.

Lemma locked_prefix pid did sends pre e post :
  EvLock :: EvAssign pid did :: EvGo :: sends ++ [EvUnlock] = pre ++ e :: post →
  (∀ x, x ∈ sends → ∃ ch b, x = EvSend ch b) →
  e ≠ EvLock → e ≠ EvUnlock →
  wlocked_after pre = true.
Proof.
  intros Heq Hsends HeL HeU.
  destruct pre as [|x pre]; cbn in Heq.
  { injection Heq as <- _. done. }
  injection Heq as <- Heq.
  destruct post as [|y post _] using rev_ind.
  { change (EvAssign pid did :: EvGo :: sends ++ [EvUnlock])
      with ((EvAssign pid did :: EvGo :: sends) ++ [EvUnlock]) in Heq.
    apply app_inj_tail in Heq as [_ <-]. done. }
  change (EvAssign pid did :: EvGo :: sends ++ [EvUnlock])
    with ((EvAssign pid did :: EvGo :: sends) ++ [EvUnlock]) in Heq.
  rewrite app_comm_cons, app_assoc in Heq.
  apply app_inj_tail in Heq as [Heq _].
  unfold wlocked_after. cbn. apply wlocked_kept.
  intros z Hz.
  assert (z ∈ EvAssign pid did :: EvGo :: sends) as Hz'.
  { rewrite Heq. apply elem_of_app. by left. }
  repeat (apply elem_of_cons in Hz' as [->|Hz']; [done|]).
  by destruct (Hsends _ Hz') as (ch & b & ->).
Qed.

(** C9, as stated, fails: the sends of the publish loop happen between
    taking the writer lock and releasing it. *)
Lemma C9_counterexample :
  trace (SelectDoctor 1 10 w_sub) =
    [EvLock; EvAssign 1 10; EvGo] ++ EvSend 0%nat true :: [EvUnlock] ∧
  under_wlock is_publish (trace (SelectDoctor 1 10 w_sub)).
Proof.
  split; [reflexivity|].
  exists [EvLock; EvAssign 1 10; EvGo], (EvSend 0%nat true), [EvUnlock].
  repeat split; reflexivity.
Qed.

(** C9, amended.  [SelectDoctor] holds the writer lock for the whole call.
    The map write and every send of the publish loop happen while it is
    held, and each subscriber of the doctor gets a send; the sends do not
    block.  The persistence write does not happen under the lock: the call
    writes no file, it only starts the flush, and a flush that finds the
    writer lock held blocks without touching the disk. *)
Theorem C9_lock_scope order pid did w :
  quiescent w → hub_open w → chan_order w did order →
  is_Some (patients (store w) !! pid) → is_Some (doctors (store w) !! did) →
  result (SelectDoctor_on order pid did w) = Returned None ∧
  (∀ pre e post,
     trace (SelectDoctor_on order pid did w) = pre ++ e :: post →
     is_publish e = true ∨ e = EvAssign pid did →
     wlocked_after pre = true) ∧
  (∀ ch, ch ∈ subscribers w did →
     ∃ b, EvSend ch b ∈ trace (SelectDoctor_on order pid did w)) ∧
  (∀ e, e ∈ trace (SelectDoctor_on order pid did w) → is_file_write e = false) ∧
  disk (final (SelectDoctor_on order pid did w)) = disk w ∧
  spawned (final (SelectDoctor_on order pid did w)) = S (spawned w) ∧
  (∀ o w', writer (mu (store w')) = true →
     persistSelections_on o w' = mkRun [] w' Blocked).
Proof.
  intros Hq Hop Ho Hp Hd.
  destruct (SelectDoctor_valid order pid did w Hq Hop Ho Hp Hd)
    as (Hres & _ & Hdk & Hsp & _ & _ & sends & Htr & Hsends).
  assert (∀ x, x ∈ sends → ∃ ch b, x = EvSend ch b) as Hsends'.
  { intros x Hx. destruct (Hsends x Hx) as (ch & b & -> & _). by eexists _, _. }
  split; [done|]. split; [|split; [|split; [|split; [done|split; [done|]]]]].
  - intros pre e post Heq He. rewrite Htr in Heq.
    apply (locked_prefix pid did sends pre e post Heq Hsends').
    + by destruct He as [He| ->]; [destruct e|].
    + by destruct He as [He| ->]; [destruct e|].
  - intros ch Hin. destruct Hp as [p Hp], Hd as [d Hd].
    rewrite (SelectDoctor_known order pid did w p d) by done. cbn [trace].
    destruct (publish_trace_complete order (assigned pid did w) ch) as [b Hb].
    + by eapply hub_open_all_open.
    + by apply (chan_order_elem _ _ _ _ Ho).
    + exists b. do 3 right. apply elem_of_app. by left.
  - intros e. rewrite Htr. intros He.
    repeat (apply elem_of_cons in He as [->|He]; [done|]).
    apply elem_of_app in He as [He|He].
    + by destruct (Hsends' _ He) as (ch & b & ->).
    + by apply list_elem_of_singleton in He as ->.
  - intros o w'. apply persistSelections_blocked.
Qed.

Lemma C9_witness :
  result (SelectDoctor_on [0%nat] 1 10 w_sub) = Returned None ∧
  (∀ pre e post,
     trace (SelectDoctor_on [0%nat] 1 10 w_sub) = pre ++ e :: post →
     is_publish e = true ∨ e = EvAssign 1 10 →
     wlocked_after pre = true) ∧
  (∀ ch, ch ∈ subscribers w_sub 10 →
     ∃ b, EvSend ch b ∈ trace (SelectDoctor_on [0%nat] 1 10 w_sub)) ∧
  (∀ e, e ∈ trace (SelectDoctor_on [0%nat] 1 10 w_sub) → is_file_write e = false) ∧
  disk (final (SelectDoctor_on [0%nat] 1 10 w_sub)) = disk w_sub ∧
  spawned (final (SelectDoctor_on [0%nat] 1 10 w_sub)) = S (spawned w_sub) ∧
  (∀ o w', writer (mu (store w')) = true →
     persistSelections_on o w' = mkRun [] w' Blocked).
Proof.
  apply (C9_lock_scope [0%nat] 1 10 w_sub).
  - reflexivity.
  - apply (inv_open _ _ w_sub_inv).
  - unfold chan_order. vm_compute. reflexivity.
  - eexists. vm_compute. reflexivity.
  - eexists. vm_compute. reflexivity.
Defined.

(** C10.  Whatever the relation holds, [PatientsOfDoctor] returns, changes
    nothing, and its result is the patients the directory has under the
    ids the relation maps to the doctor: an entry whose patient id the
    directory does not have adds nothing to the result. *)
Theorem C10_patients_of_known_only order did w :
  writer (mu (store w)) = false → sel_order w order →
  ∃ res,
    PatientsOfDoctor_on order did w = mkRun [EvRLock; EvRUnlock] w (Returned res) ∧
    res = omap (scan_entry (patients (store w)) did) order ∧
    (∀ p, p ∈ res ↔
          ∃ pid, selections (store w) !! pid = Some did ∧
                 patients (store w) !! pid = Some p) ∧
    (∀ p, p ∈ res → ∃ pid, patients (store w) !! pid = Some p).
Proof.
  intros Hw Ho. exists (scan (patients (store w)) did order).
  split; [by apply PatientsOfDoctor_run|]. split; [apply scan_omap|].
  split.
  - intros p. by apply elem_of_scan.
  - intros p (pid & _ & Hp)%(elem_of_scan _ _ _ _ _ Ho). by exists pid.
Qed.

Lemma C10_witness :
  selections (store world_stale) !! 999 = Some 10 ∧
  patients (store world_stale) !! 999 = None ∧
  result (PatientsOfDoctor 10 world_stale) = Returned [p1] ∧
  ∃ res,
    PatientsOfDoctor_on [(1, 10); (999, 10)] 10 world_stale =
      mkRun [EvRLock; EvRUnlock] world_stale (Returned res) ∧
    res = omap (scan_entry (patients (store world_stale)) 10) [(1, 10); (999, 10)] ∧
    (∀ p, p ∈ res ↔
          ∃ pid, selections (store world_stale) !! pid = Some 10 ∧
                 patients (store world_stale) !! pid = Some p) ∧
    (∀ p, p ∈ res → ∃ pid, patients (store world_stale) !! pid = Some p).
Proof.
  split; [reflexivity|]. split; [reflexivity|]. split; [reflexivity|].
  apply (C10_patients_of_known_only [(1, 10); (999, 10)] 10 world_stale).
  - reflexivity.
  - unfold sel_order. vm_compute.
    first [reflexivity | apply perm_swap].
Defined.

(** ** Beyond the claims: tokens *)

Lemma string_length_app (s t : string) :
  String.length (s +:+ t) = (String.length s + String.length t)%nat.
Proof.
  induction s as [|a s IH]; [done|].
  change (String a s +:+ t) with (String a (s +:+ t)). cbn. by rewrite IH.
Qed.

Lemma string_chars_app (s t : string) :
  String.list_ascii_of_string (s +:+ t) =
    String.list_ascii_of_string s ++ String.list_ascii_of_string t.
Proof.
  induction s as [|a s IH]; [done|].
  change (String a s +:+ t) with (String a (s +:+ t)). cbn. by rewrite IH.
Qed.

Lemma string_get_lt (n : nat) (s : string) :
  (n < String.length s)%nat →
  ∃ c, String.get n s = Some c ∧ c ∈ String.list_ascii_of_string s.
Proof.
  revert n. induction s as [|a s IH]; intros n Hn; cbn in *; [lia|].
  destruct n as [|n].
  - exists a. split; [done | left].
  - destruct (IH n) as (c & Hc & Hin); [lia|]. exists c. split; [done | by right].
Qed.

Lemma string_get_ge (n : nat) (s : string) :
  (String.length s ≤ n)%nat → String.get n s = None.
Proof.
  revert n. induction s as [|a s IH]; intros n Hn; cbn in *; [done|].
  destruct n as [|n]; [lia|]. apply IH. lia.
Qed.

Lemma makeToken_loop (Intn : nat → nat) (l : list nat) (t0 : string) :
  (∀ i, i ∈ l → (Intn i < 36)%nat) →
  ∃ t,
    foldl (λ sb i,
             match sb with
             | None => None
             | Some t =>
                 match String.get (Intn i) letters with
                 | Some c => Some (t +:+ String c "")
                 | None => None
                 end
             end) (Some t0) l = Some t ∧
    String.length t = (String.length t0 + length l)%nat ∧
    ∀ c, c ∈ String.list_ascii_of_string t →
         c ∈ String.list_ascii_of_string t0 ∨
         c ∈ String.list_ascii_of_string letters.
Proof.
  revert t0. induction l as [|i l IH]; intros t0 Hl; cbn [foldl].
  - exists t0. split; [done|]. split; [cbn; lia | by left].
  - destruct (string_get_lt (Intn i) letters) as (c & Hc & Hin).
    { change (String.length letters) with 36%nat. apply Hl. left. }
    rewrite Hc.
    destruct (IH (t0 +:+ String c "")) as (t & Ht & Hlen & Hch).
    { intros j Hj. apply Hl. by right. }
    exists t. split; [done|]. split.
    + rewrite Hlen, string_length_app. cbn. lia.
    + intros c' Hc'. destruct (Hch c' Hc') as [H0|H0]; [|by right].
      rewrite string_chars_app in H0. apply elem_of_app in H0 as [H0|H0]; [by left|].
      cbn in H0. apply list_elem_of_singleton in H0 as ->. by right.
Qed.

(** X4.  When every draw is below 36, as [rand.Intn(36)] promises,
    [makeToken] returns a token of 24 characters, each of them a lower-case
    letter or a digit of [letters]. *)
Theorem makeToken_format (Intn : nat → nat) :
  (∀ i, (i < 24)%nat → (Intn i < 36)%nat) →
  ∃ t, makeToken Intn = Some t ∧
       String.length t = 24%nat ∧
       ∀ c, c ∈ String.list_ascii_of_string t →
            c ∈ String.list_ascii_of_string letters.
Proof.
  intros HI. unfold makeToken.
  destruct (makeToken_loop Intn (seq 0 24) "") as (t & Ht & Hlen & Hch).
  { intros i Hi. apply HI. apply elem_of_seq in Hi. lia. }
  exists t. split; [done|]. split; [by rewrite Hlen|].
  intros c Hc. destruct (Hch c Hc) as [H0|H0]; [|done].
  by apply elem_of_nil in H0.
Qed.

Lemma makeToken_format_witness :
  ∃ t, makeToken (λ i, (7 * i) `mod` 36)%nat = Some t ∧
       String.length t = 24%nat ∧
       ∀ c, c ∈ String.list_ascii_of_string t →
            c ∈ String.list_ascii_of_string letters.
Proof.
  apply (makeToken_format (λ i, (7 * i) `mod` 36)%nat).
  intros i _. apply Nat.mod_upper_bound. lia.
Defined.

(** ** Beyond the claims: the directory [NewStore] builds *)

Lemma foldl_invariant_in {A B} (P : A → Prop) (f : A → B → A) (l : list B) (a : A) :
  P a → (∀ a x, x ∈ l → P a → P (f a x)) → P (foldl f a l).
Proof.
  revert a. induction l as [|x l IH]; intros a Ha Hf; cbn; [done|].
  apply IH.
  - apply Hf; [left | done].
  - intros b y Hy. apply Hf. by right.
Qed.

Lemma patient_key_not_doctor_key (l l' : string) :
  "patient:" +:+ l ≠ "doctor:" +:+ l'.
Proof. intros H. cbv [String.append] in H. discriminate H. Qed.

(** What the two loops of [NewStore] leave in the maps: only seed entries,
    each under its own id or its own role-scoped login. *)
Lemma directory_sound (s : Seed) :
  (∀ k p, patients (directory s) !! k = Some p →
     p ∈ Seed_Patients s ∧ Patient_ID p = k) ∧
  (∀ k d, doctors (directory s) !! k = Some d →
     d ∈ Seed_Doctors s ∧ Doctor_ID d = k) ∧
  (∀ k e, byLogin (directory s) !! k = Some e →
     (∃ p, p ∈ Seed_Patients s ∧ k = "patient:" +:+ Patient_Login p ∧
           e = mkLoginEntry "patient" (Patient_ID p) (Patient_Password p)) ∨
     (∃ d, d ∈ Seed_Doctors s ∧ k = "doctor:" +:+ Doctor_Login d ∧
           e = mkLoginEntry "doctor" (Doctor_ID d) (Doctor_Password d))).
Proof.
  unfold directory.
  set (P := λ st : Store,
    (∀ k p, patients st !! k = Some p → p ∈ Seed_Patients s ∧ Patient_ID p = k) ∧
    (∀ k d, doctors st !! k = Some d → d ∈ Seed_Doctors s ∧ Doctor_ID d = k) ∧
    (∀ k e, byLogin st !! k = Some e →
       (∃ p, p ∈ Seed_Patients s ∧ k = "patient:" +:+ Patient_Login p ∧
             e = mkLoginEntry "patient" (Patient_ID p) (Patient_Password p)) ∨
       (∃ d, d ∈ Seed_Doctors s ∧ k = "doctor:" +:+ Doctor_Login d ∧
             e = mkLoginEntry "doctor" (Doctor_ID d) (Doctor_Password d)))).
  apply (foldl_invariant_in P).
  - apply (foldl_invariant_in P).
    + split; [|split]; intros k x H; cbn in H; by rewrite lookup_empty in H.
    + intros st p Hp (H1 & H2 & H3). split; [|split]; cbn.
      * intros k q. rewrite lookup_insert. case_decide as Hk; [|apply H1].
        intros [= <-]. done.
      * apply H2.
      * intros k e. rewrite lookup_insert. case_decide as Hk; [|apply H3].
        intros [= <-]. left. by exists p.
  - intros st d Hd (H1 & H2 & H3). split; [|split]; cbn.
    + apply H1.
    + intros k q. rewrite lookup_insert. case_decide as Hk; [|apply H2].
      intros [= <-]. done.
    + intros k e. rewrite lookup_insert. case_decide as Hk; [|apply H3].
      intros [= <-]. right. by exists d.
Qed.

(** Every id of the seed is filed. *)
Lemma directory_complete (s : Seed) :
  (∀ p, p ∈ Seed_Patients s → is_Some (patients (directory s) !! Patient_ID p)) ∧
  (∀ d, d ∈ Seed_Doctors s → is_Some (doctors (directory s) !! Doctor_ID d)).
Proof.
  unfold directory.
  set (addp := λ (st : Store) (p : Patient),
         mkStore (mu st) (<[Patient_ID p := p]> (patients st)) (doctors st)
           (<["patient:" +:+ Patient_Login p :=
                mkLoginEntry "patient" (Patient_ID p) (Patient_Password p)]>
              (byLogin st))
           (selections st) (subs st)).
  set (addd := λ (st : Store) (d : Doctor),
         mkStore (mu st) (patients st) (<[Doctor_ID d := d]> (doctors st))
           (<["doctor:" +:+ Doctor_Login d :=
                mkLoginEntry "doctor" (Doctor_ID d) (Doctor_Password d)]>
              (byLogin st))
           (selections st) (<[Doctor_ID d := ∅]> (subs st))).
  assert (∀ l st p, (p ∈ l ∨ is_Some (patients st !! Patient_ID p)) →
            is_Some (patients (foldl addp st l) !! Patient_ID p)) as HP.
  { induction l as [|x l IH]; intros st p [Hin|Hs]; cbn [foldl].
    - by apply elem_of_nil in Hin.
    - done.
    - apply IH. apply elem_of_cons in Hin as [->|Hin]; [right|by left].
      cbn. rewrite lookup_insert_eq. by eexists.
    - apply IH. right. cbn. rewrite lookup_insert. case_decide; [by eexists | done]. }
  assert (∀ l st, patients (foldl addd st l) = patients st) as HPD.
  { induction l as [|x l IH]; intros st; cbn [foldl]; [done|]. by rewrite IH. }
  assert (∀ l st d, (d ∈ l ∨ is_Some (doctors st !! Doctor_ID d)) →
            is_Some (doctors (foldl addd st l) !! Doctor_ID d)) as HD.
  { induction l as [|x l IH]; intros st d [Hin|Hs]; cbn [foldl].
    - by apply elem_of_nil in Hin.
    - done.
    - apply IH. apply elem_of_cons in Hin as [->|Hin]; [right|by left].
      cbn. rewrite lookup_insert_eq. by eexists.
    - apply IH. right. cbn. rewrite lookup_insert. case_decide; [by eexists | done]. }
  split.
  - intros p Hp. rewrite HPD. apply HP. by left.
  - intros d Hd. apply HD. by left.
Qed.

(** With distinct logins among the seed's patients, each of them has its
    own entry in [byLogin]. *)
Lemma directory_patient_login (s : Seed) (p : Patient) :
  NoDup (Patient_Login <$> Seed_Patients s) → p ∈ Seed_Patients s →
  byLogin (directory s) !! ("patient:" +:+ Patient_Login p) =
    Some (mkLoginEntry "patient" (Patient_ID p) (Patient_Password p)).
Proof.
  intros Hnd Hin. unfold directory.
  set (addp := λ (st : Store) (p : Patient),
         mkStore (mu st) (<[Patient_ID p := p]> (patients st)) (doctors st)
           (<["patient:" +:+ Patient_Login p :=
                mkLoginEntry "patient" (Patient_ID p) (Patient_Password p)]>
              (byLogin st))
           (selections st) (subs st)).
  set (addd := λ (st : Store) (d : Doctor),
         mkStore (mu st) (patients st) (<[Doctor_ID d := d]> (doctors st))
           (<["doctor:" +:+ Doctor_Login d :=
                mkLoginEntry "doctor" (Doctor_ID d) (Doctor_Password d)]>
              (byLogin st))
           (selections st) (<[Doctor_ID d := ∅]> (subs st))).
  assert (∀ l st, byLogin (foldl addd st l) !! ("patient:" +:+ Patient_Login p) =
                  byLogin st !! ("patient:" +:+ Patient_Login p)) as HD.
  { induction l as [|x l IH]; intros st; cbn [foldl]; [done|].
    rewrite IH. cbn. rewrite lookup_insert_ne; [done|].
    intros H. by apply (patient_key_not_doctor_key (Patient_Login p) (Doctor_Login x)). }
  rewrite HD.
  assert (∀ l st, NoDup (Patient_Login <$> l) → p ∈ l →
            byLogin (foldl addp st l) !! ("patient:" +:+ Patient_Login p) =
              Some (mkLoginEntry "patient" (Patient_ID p) (Patient_Password p))) as HP.
  { induction l as [|x l IH] using rev_ind; intros st Hl Hp.
    - by apply elem_of_nil in Hp.
    - rewrite foldl_app. cbn [foldl]. cbn.
      rewrite fmap_app in Hl. apply NoDup_app in Hl as (Hl & Hdis & _).
      apply elem_of_app in Hp as [Hp|Hp].
      + rewrite lookup_insert_ne; [by apply IH|].
        intros Heq. apply (inj _) in Heq.
        apply (Hdis (Patient_Login p)).
        * apply list_elem_of_fmap. by exists p.
        * rewrite <- Heq. cbn. left.
      + apply list_elem_of_singleton in Hp as ->. by rewrite lookup_insert_eq. }
  by apply HP.
Qed.

Lemma perform_byLogin issued w a :
  world_inv issued w → byLogin (store (perform a w)) = byLogin (store w).
Proof.
  intros Hinv. pose proof (inv_mu _ _ Hinv) as Hq.
  destruct a as [order pid did|order did|did|[did ch]|ch|order]; cbn [perform].
  - destruct (SelectDoctor_cases order pid did w)
      as [[_ E]|[(_ & _ & err & E)|(_ & Hp & Hd & E)]]; rewrite E; cbn; try done.
    destruct (publish_frame order (assigned pid did w)) as (Hst & _ & _ & _).
    by rewrite Hst.
  - by rewrite PatientsOfDoctor_run by by apply quiescent_writer.
  - by rewrite Subscribe_quiescent by done.
  - destruct (cancel_cases did ch w Hq)
      as [(c & _ & _ & E)|(msg & _ & _ & E)]; rewrite E; cbn;
      unfold removed; by destruct (subs (store w) !! did).
  - by destruct (try_recv_cases ch w) as [(c & n & _ & _ & E)|E]; rewrite E.
  - by rewrite persistSelections_run by by apply quiescent_writer.
Qed.

(** The directory and the login index of a running program are those
    [NewStore] built from the seed. *)
Lemma program_static (d : Disk) (s : Seed) (w0 : World) issued w :
  NewStore d = Some w0 → seedFile d = Some s → reachable [] w0 issued w →
  patients (store w) = patients (directory s) ∧
  doctors (store w) = doctors (directory s) ∧
  byLogin (store w) = byLogin (directory s).
Proof.
  intros Hn Hs Hr.
  pose proof (world_inv_start d w0 Hn) as Hinv0.
  induction Hr as [|issued w a Hr IH Hal].
  - destruct (NewStore_world d w0 Hn) as (s' & Hs' & ->).
    assert (s' = s) as -> by congruence. done.
  - destruct IH as (H1 & H2 & H3).
    pose proof (world_inv_reachable _ _ _ _ Hinv0 Hr) as Hinv.
    destruct (perform_directory issued w a Hinv) as (Hps & Hds & _).
    rewrite Hps, Hds, (perform_byLogin issued w a Hinv). done.
Qed.

Lemma w_sub_reachable : reachable [] world0 [(10, 0%nat)] w_sub.
Proof.
  apply (reach_step [] world0 [] world0 (ASubscribe 10)); [apply reach_start | exact I].
Qed.

Lemma w_sel_reachable : reachable [] world0 [(10, 0%nat)] w_sel.
Proof.
  change (reachable [] world0
            (issues (ASelect (elements (subscribers w_sub 20)) 1 20) w_sub ++
               [(10, 0%nat)])
            (perform (ASelect (elements (subscribers w_sub 20)) 1 20) w_sub)).
  apply reach_step.
  - exact w_sub_reachable.
  - unfold allowed, chan_order. reflexivity.
Qed.

(** ** Beyond the claims: [Login] *)

(** X1.  In a running program a successful [Login] with role "patient" was
    given the login and the password of a patient of the seed; the response
    has that patient's id, the role "patient", the token [makeToken] made
    and the name of the patient filed under the id. *)
Theorem Login_patient_sound (TrimSpace : string → string) (Intn : nat → nat)
    (d : Disk) (s : Seed) (w0 : World) issued w login pw resp :
  NewStore d = Some w0 → seedFile d = Some s → reachable [] w0 issued w →
  Login TrimSpace Intn "patient" login pw (store w) = Returned (resp, None) →
  ∃ p q,
    p ∈ Seed_Patients s ∧ Patient_Login p = login ∧ Patient_Password p = pw ∧
    LoginResp_ID resp = Patient_ID p ∧ LoginResp_Role resp = "patient" ∧
    makeToken Intn = Some (LoginResp_Token resp) ∧
    patients (store w) !! Patient_ID p = Some q ∧ q ∈ Seed_Patients s ∧
    LoginResp_Name resp = Patient_Name q.
Proof.
  intros Hn Hs Hr HL.
  destruct (program_static d s w0 issued w Hn Hs Hr) as (Hps & Hds & Hbl).
  destruct (directory_sound s) as (Hsp & _ & Hsl).
  destruct (directory_complete s) as (Hcp & _).
  unfold Login in HL. rewrite Hbl, Hps in HL.
  change ("patient" +:+ ":" +:+ login) with ("patient:" +:+ login) in HL.
  destruct (byLogin (directory s) !! ("patient:" +:+ login)) as [e|] eqn:He;
    [|discriminate HL].
  case_decide as Hpw; [discriminate HL|].
  destruct (makeToken Intn) as [token|] eqn:Htok; [|discriminate HL].
  rewrite decide_True in HL by done. injection HL as <-.
  destruct (Hsl _ _ He) as [(p & Hp & Hk & ->)|(d' & _ & Hk & _)].
  - apply (inj _) in Hk. cbn in *.
    destruct (Hcp p Hp) as [q Hq]. destruct (Hsp _ _ Hq) as [Hqin _].
    exists p, q. rewrite Hps, Hq. cbn. done.
  - by apply patient_key_not_doctor_key in Hk.
Qed.

Lemma Login_patient_sound_witness :
  ∃ p q,
    p ∈ Seed_Patients seed0 ∧ Patient_Login p = "p1" ∧ Patient_Password p = "pw" ∧
    LoginResp_ID (mkLoginResp token0 "patient" 1 "Ann") = Patient_ID p ∧
    LoginResp_Role (mkLoginResp token0 "patient" 1 "Ann") = "patient" ∧
    makeToken (λ i, (7 * i) `mod` 36)%nat =
      Some (LoginResp_Token (mkLoginResp token0 "patient" 1 "Ann")) ∧
    patients (store w_sel) !! Patient_ID p = Some q ∧ q ∈ Seed_Patients seed0 ∧
    LoginResp_Name (mkLoginResp token0 "patient" 1 "Ann") = Patient_Name q.
Proof.
  apply (Login_patient_sound (λ x, x) (λ i, (7 * i) `mod` 36)%nat disk0 seed0 world0
           [(10, 0%nat)] w_sel "p1" "pw" (mkLoginResp token0 "patient" 1 "Ann")).
  - reflexivity.
  - reflexivity.
  - exact w_sel_reachable.
  - vm_compute. reflexivity.
Defined.

(** X2.  In a running program a successful [Login] with role "doctor" was
    given the login and the password of a doctor of the seed; the response
    has that doctor's id, the role "doctor", and as name the trimmed
    "Last First Middle" of the doctor filed under the id. *)
Theorem Login_doctor_sound (TrimSpace : string → string) (Intn : nat → nat)
    (d : Disk) (s : Seed) (w0 : World) issued w login pw resp :
  NewStore d = Some w0 → seedFile d = Some s → reachable [] w0 issued w →
  Login TrimSpace Intn "doctor" login pw (store w) = Returned (resp, None) →
  ∃ x q,
    x ∈ Seed_Doctors s ∧ Doctor_Login x = login ∧ Doctor_Password x = pw ∧
    LoginResp_ID resp = Doctor_ID x ∧ LoginResp_Role resp = "doctor" ∧
    makeToken Intn = Some (LoginResp_Token resp) ∧
    doctors (store w) !! Doctor_ID x = Some q ∧ q ∈ Seed_Doctors s ∧
    LoginResp_Name resp =
      TrimSpace (Doctor_Last q +:+ " " +:+ Doctor_First q +:+ " " +:+ Doctor_Middle q).
Proof.
  intros Hn Hs Hr HL.
  destruct (program_static d s w0 issued w Hn Hs Hr) as (Hps & Hds & Hbl).
  destruct (directory_sound s) as (_ & Hsd & Hsl).
  destruct (directory_complete s) as (_ & Hcd).
  unfold Login in HL. rewrite Hbl, Hds in HL.
  change ("doctor" +:+ ":" +:+ login) with ("doctor:" +:+ login) in HL.
  destruct (byLogin (directory s) !! ("doctor:" +:+ login)) as [e|] eqn:He;
    [|discriminate HL].
  case_decide as Hpw; [discriminate HL|].
  destruct (makeToken Intn) as [token|] eqn:Htok; [|discriminate HL].
  rewrite decide_False in HL by discriminate. injection HL as <-.
  destruct (Hsl _ _ He) as [(p & _ & Hk & _)|(x & Hx & Hk & ->)].
  - symmetry in Hk. by apply patient_key_not_doctor_key in Hk.
  - apply (inj _) in Hk. cbn in *.
    destruct (Hcd x Hx) as [q Hq]. destruct (Hsd _ _ Hq) as [Hqin _].
    exists x, q. rewrite Hds, Hq. cbn. done.
Qed.

Lemma Login_doctor_sound_witness :
  ∃ x q,
    x ∈ Seed_Doctors seed0 ∧ Doctor_Login x = "d1" ∧ Doctor_Password x = "pw" ∧
    LoginResp_ID (mkLoginResp token0 "doctor" 10 "House Greg ") = Doctor_ID x ∧
    LoginResp_Role (mkLoginResp token0 "doctor" 10 "House Greg ") = "doctor" ∧
    makeToken (λ i, (7 * i) `mod` 36)%nat =
      Some (LoginResp_Token (mkLoginResp token0 "doctor" 10 "House Greg ")) ∧
    doctors (store w_sel) !! Doctor_ID x = Some q ∧ q ∈ Seed_Doctors seed0 ∧
    LoginResp_Name (mkLoginResp token0 "doctor" 10 "House Greg ") =
      (λ t : string, t)
        (Doctor_Last q +:+ " " +:+ Doctor_First q +:+ " " +:+ Doctor_Middle q).
Proof.
  apply (Login_doctor_sound (λ t, t) (λ i, (7 * i) `mod` 36)%nat disk0 seed0 world0
           [(10, 0%nat)] w_sel "d1" "pw"
           (mkLoginResp token0 "doctor" 10 "House Greg ")).
  - reflexivity.
  - reflexivity.
  - exact w_sel_reachable.
  - vm_compute. reflexivity.
Defined.

(** X3.  When the seed's patients have distinct logins, each of them logs
    in with its own password and gets its own id; the same login with any
    other password, and any login no patient of the seed has, get the one
    error "invalid credentials" and the empty response. *)
Theorem Login_patient_complete (TrimSpace : string → string) (Intn : nat → nat)
    (d : Disk) (s : Seed) (w0 : World) issued w p :
  NewStore d = Some w0 → seedFile d = Some s → reachable [] w0 issued w →
  NoDup (Patient_Login <$> Seed_Patients s) → p ∈ Seed_Patients s →
  (∀ i, (i < 24)%nat → (Intn i < 36)%nat) →
  (∃ resp,
     Login TrimSpace Intn "patient" (Patient_Login p) (Patient_Password p) (store w) =
       Returned (resp, None) ∧
     LoginResp_ID resp = Patient_ID p ∧ LoginResp_Role resp = "patient") ∧
  (∀ pw, pw ≠ Patient_Password p →
     Login TrimSpace Intn "patient" (Patient_Login p) pw (store w) =
       Returned (zeroLoginResp, Some "invalid credentials")) ∧
  (∀ l pw, l ∉ Patient_Login <$> Seed_Patients s →
     Login TrimSpace Intn "patient" l pw (store w) =
       Returned (zeroLoginResp, Some "invalid credentials")).
Proof.
  intros Hn Hs Hr Hnd Hp HI.
  destruct (program_static d s w0 issued w Hn Hs Hr) as (Hps & Hds & Hbl).
  pose proof (directory_patient_login s p Hnd Hp) as He.
  destruct (makeToken_format Intn HI) as (t & Ht & _).
  split; [|split].
  - unfold Login. rewrite Hbl.
    change ("patient" +:+ ":" +:+ Patient_Login p)
      with ("patient:" +:+ Patient_Login p).
    rewrite He. rewrite decide_False by (intros H; by apply H).
    rewrite Ht. eexists. split; [reflexivity|]. split; reflexivity.
  - intros pw Hpw. unfold Login. rewrite Hbl.
    change ("patient" +:+ ":" +:+ Patient_Login p)
      with ("patient:" +:+ Patient_Login p).
    rewrite He. by rewrite decide_True by (cbn; congruence).
  - intros l pw Hl. unfold Login. rewrite Hbl.
    change ("patient" +:+ ":" +:+ l) with ("patient:" +:+ l).
    destruct (byLogin (directory s) !! ("patient:" +:+ l)) as [e|] eqn:Hl'; [|done].
    destruct (directory_sound s) as (_ & _ & Hsl).
    destruct (Hsl _ _ Hl') as [(p' & Hp' & Hk & _)|(x & _ & Hk & _)].
    + apply (inj _) in Hk. destruct Hl. apply list_elem_of_fmap. by exists p'.
    + by apply patient_key_not_doctor_key in Hk.
Qed.

Lemma Login_patient_complete_witness :
  (∃ resp,
     Login (λ t, t) (λ i, (7 * i) `mod` 36)%nat "patient"
       (Patient_Login p2) (Patient_Password p2) (store w_sel) =
       Returned (resp, None) ∧
     LoginResp_ID resp = Patient_ID p2 ∧ LoginResp_Role resp = "patient") ∧
  (∀ pw, pw ≠ Patient_Password p2 →
     Login (λ t, t) (λ i, (7 * i) `mod` 36)%nat "patient" (Patient_Login p2) pw
       (store w_sel) =
       Returned (zeroLoginResp, Some "invalid credentials")) ∧
  (∀ l pw, l ∉ Patient_Login <$> Seed_Patients seed0 →
     Login (λ t, t) (λ i, (7 * i) `mod` 36)%nat "patient" l pw (store w_sel) =
       Returned (zeroLoginResp, Some "invalid credentials")).
Proof.
  apply (Login_patient_complete (λ t, t) (λ i, (7 * i) `mod` 36)%nat disk0 seed0
           world0 [(10, 0%nat)] w_sel p2).
  - reflexivity.
  - reflexivity.
  - exact w_sel_reachable.
  - cbn. apply NoDup_cons. split.
    + intros H. apply list_elem_of_singleton in H. discriminate H.
    + apply NoDup_singleton.
  - right. left.
  - intros i _. apply Nat.mod_upper_bound. lia.
Defined.

(** ** Beyond the claims: reading the directory *)

Lemma GetPatient_run id w :
  writer (mu (store w)) = false →
  GetPatient id w =
    mkRun [EvRLock; EvRUnlock] w
      (Returned match patients (store w) !! id with
                | Some p => (p, true)
                | None => (zeroPatient, false)
                end).
Proof.
  intros Hq. unfold GetPatient.
  rewrite read_section.
  - run_M. destruct w as [[[wr n] ps ds bl sel sb] h dk k]. cbn in *. subst wr.
    by destruct (_ !! id).
  - done.
  - run_M. by destruct (patients (store w) !! id).
  - run_M. by destruct (patients (store w) !! id).
Qed.

Lemma GetDoctor_run id w :
  writer (mu (store w)) = false →
  GetDoctor id w =
    mkRun [EvRLock; EvRUnlock] w
      (Returned match doctors (store w) !! id with
                | Some d => (d, true)
                | None => (zeroDoctor, false)
                end).
Proof.
  intros Hq. unfold GetDoctor.
  rewrite read_section.
  - run_M. destruct w as [[[wr n] ps ds bl sel sb] h dk k]. cbn in *. subst wr.
    by destruct (_ !! id).
  - done.
  - run_M. by destruct (doctors (store w) !! id).
  - run_M. by destruct (doctors (store w) !! id).
Qed.

Lemma ListDoctors_loop (order : list (Z * Doctor)) (acc : list Doctor) :
  foldl (λ out '(_, d), out ++ [d]) acc order = acc ++ order.*2.
Proof.
  revert acc. induction order as [|[k d] order IH]; intros acc; cbn.
  - by rewrite app_nil_r.
  - rewrite IH. by rewrite <- app_assoc.
Qed.

Lemma ListDoctors_run order w :
  writer (mu (store w)) = false →
  ListDoctors_on order w = mkRun [EvRLock; EvRUnlock] w (Returned (order.*2)).
Proof.
  intros Hq. unfold ListDoctors_on.
  rewrite read_section; [|done|done|done]. run_M.
  rewrite (ListDoctors_loop order []).
  destruct w as [[[wr n] ps ds bl sel sb] h dk k]. cbn in *. by subst wr.
Qed.

(** X5.  In a running program [GetPatient] and [GetDoctor] answer from the
    seed: an id some seed entry carries is found, and what is returned is a
    seed entry with that id; any other id gives the zero value and false.
    Neither changes anything. *)
Theorem directory_reads (d : Disk) (s : Seed) (w0 : World) issued w id :
  NewStore d = Some w0 → seedFile d = Some s → reachable [] w0 issued w →
  ((∃ p, p ∈ Seed_Patients s ∧ Patient_ID p = id) →
     ∃ p, result (GetPatient id w) = Returned (p, true) ∧
          p ∈ Seed_Patients s ∧ Patient_ID p = id) ∧
  ((¬ ∃ p, p ∈ Seed_Patients s ∧ Patient_ID p = id) →
     result (GetPatient id w) = Returned (zeroPatient, false)) ∧
  ((∃ x, x ∈ Seed_Doctors s ∧ Doctor_ID x = id) →
     ∃ x, result (GetDoctor id w) = Returned (x, true) ∧
          x ∈ Seed_Doctors s ∧ Doctor_ID x = id) ∧
  ((¬ ∃ x, x ∈ Seed_Doctors s ∧ Doctor_ID x = id) →
     result (GetDoctor id w) = Returned (zeroDoctor, false)) ∧
  final (GetPatient id w) = w ∧ final (GetDoctor id w) = w.
Proof.
  intros Hn Hs Hr.
  destruct (program_static d s w0 issued w Hn Hs Hr) as (Hps & Hds & _).
  pose proof (program_inv d w0 issued w Hn Hr) as Hinv.
  pose proof (quiescent_writer w (inv_mu _ _ Hinv)) as Hw.
  destruct (directory_sound s) as (Hsp & Hsd & _).
  destruct (directory_complete s) as (Hcp & Hcd).
  rewrite (GetPatient_run id w Hw), (GetDoctor_run id w Hw). cbn.
  rewrite Hps, Hds.
  split; [|split; [|split; [|split; [|done]]]].
  - intros (p & Hp & <-). destruct (Hcp p Hp) as [q Hq]. rewrite Hq.
    destruct (Hsp _ _ Hq). by exists q.
  - intros Hno. destruct (patients (directory s) !! id) as [q|] eqn:Hq; [|done].
    destruct Hno. exists q. by apply Hsp.
  - intros (x & Hx & <-). destruct (Hcd x Hx) as [q Hq]. rewrite Hq.
    destruct (Hsd _ _ Hq). by exists q.
  - intros Hno. destruct (doctors (directory s) !! id) as [q|] eqn:Hq; [|done].
    destruct Hno. exists q. by apply Hsd.
Qed.

Lemma directory_reads_witness :
  ((∃ p, p ∈ Seed_Patients seed0 ∧ Patient_ID p = 10) →
     ∃ p, result (GetPatient 10 w_sel) = Returned (p, true) ∧
          p ∈ Seed_Patients seed0 ∧ Patient_ID p = 10) ∧
  ((¬ ∃ p, p ∈ Seed_Patients seed0 ∧ Patient_ID p = 10) →
     result (GetPatient 10 w_sel) = Returned (zeroPatient, false)) ∧
  ((∃ x, x ∈ Seed_Doctors seed0 ∧ Doctor_ID x = 10) →
     ∃ x, result (GetDoctor 10 w_sel) = Returned (x, true) ∧
          x ∈ Seed_Doctors seed0 ∧ Doctor_ID x = 10) ∧
  ((¬ ∃ x, x ∈ Seed_Doctors seed0 ∧ Doctor_ID x = 10) →
     result (GetDoctor 10 w_sel) = Returned (zeroDoctor, false)) ∧
  final (GetPatient 10 w_sel) = w_sel ∧ final (GetDoctor 10 w_sel) = w_sel.
Proof.
  apply (directory_reads disk0 seed0 world0 [(10, 0%nat)] w_sel 10).
  - reflexivity.
  - reflexivity.
  - exact w_sel_reachable.
Defined.

(** X6.  In a running program [ListDoctors] returns, changes nothing, and
    lists every doctor id of the seed exactly once, whatever the order of
    the range and however often the seed repeats an id; each listed doctor
    is the one filed under its id. *)
Theorem ListDoctors_each_once (d : Disk) (s : Seed) (w0 : World) issued w order :
  NewStore d = Some w0 → seedFile d = Some s → reachable [] w0 issued w →
  doc_order w order →
  ∃ out,
    ListDoctors_on order w = mkRun [EvRLock; EvRUnlock] w (Returned out) ∧
    NoDup (Doctor_ID <$> out) ∧
    (∀ x, x ∈ out ↔ doctors (store w) !! Doctor_ID x = Some x) ∧
    (∀ k, (∃ x, x ∈ out ∧ Doctor_ID x = k) ↔
          (∃ x, x ∈ Seed_Doctors s ∧ Doctor_ID x = k)).
Proof.
  intros Hn Hs Hr Ho.
  destruct (program_static d s w0 issued w Hn Hs Hr) as (_ & Hds & _).
  pose proof (program_inv d w0 issued w Hn Hr) as Hinv.
  pose proof (quiescent_writer w (inv_mu _ _ Hinv)) as Hw.
  destruct (directory_sound s) as (_ & Hsd & _).
  destruct (directory_complete s) as (_ & Hcd).
  unfold doc_order in Ho. rewrite Hds in *.
  assert (∀ k x, (k, x) ∈ order ↔ doctors (directory s) !! k = Some x) as Hin.
  { intros k x. rewrite Ho. apply elem_of_map_to_list. }
  exists (order.*2). split; [by apply ListDoctors_run|]. split; [|split].
  - assert (Doctor_ID <$> order.*2 = order.*1) as ->.
    { rewrite <- list_fmap_compose. apply list_fmap_ext.
      intros i [k x] Hix. cbn. apply list_elem_of_lookup_2 in Hix.
      apply Hin in Hix. by apply Hsd in Hix as [_ ?]. }
    rewrite Ho. apply NoDup_fst_map_to_list.
  - intros x. rewrite list_elem_of_fmap. split.
    + intros ([k y] & -> & Hy). cbn. apply Hin in Hy.
      destruct (Hsd _ _ Hy) as [_ <-]. done.
    + intros Hx. exists (Doctor_ID x, x). split; [done|]. by apply Hin.
  - intros k. split.
    + intros (x & Hx & <-). apply list_elem_of_fmap in Hx as ([k y] & -> & Hy).
      cbn. apply Hin in Hy. destruct (Hsd _ _ Hy) as [Hys <-]. by exists y.
    + intros (x & Hx & <-). destruct (Hcd x Hx) as [q Hq].
      exists q. destruct (Hsd _ _ Hq) as [_ Hid]. split; [|done].
      apply list_elem_of_fmap. exists (Doctor_ID x, q). split; [done|]. by apply Hin.
Qed.

Lemma ListDoctors_each_once_witness :
  ∃ out,
    ListDoctors_on [(10, d10); (20, d20)] w_sel =
      mkRun [EvRLock; EvRUnlock] w_sel (Returned out) ∧
    NoDup (Doctor_ID <$> out) ∧
    (∀ x, x ∈ out ↔ doctors (store w_sel) !! Doctor_ID x = Some x) ∧
    (∀ k, (∃ x, x ∈ out ∧ Doctor_ID x = k) ↔
          (∃ x, x ∈ Seed_Doctors seed0 ∧ Doctor_ID x = k)).
Proof.
  apply (ListDoctors_each_once disk0 seed0 world0 [(10, 0%nat)] w_sel
           [(10, d10); (20, d20)]).
  - reflexivity.
  - reflexivity.
  - exact w_sel_reachable.
  - unfold doc_order. vm_compute. first [reflexivity | apply perm_swap].
Defined.

(** ** Beyond the claims: the request handlers *)

Lemma bind_run {A B} (m : M A) (f : A → M B) (w w' : World) t (a : A) :
  m w = mkRun t w' (Returned a) →
  (m ≫= f) w =
    mkRun (t ++ trace (f a w')) (final (f a w')) (result (f a w')).
Proof. intros E. rewrite (bind_returned m f w a); by rewrite E. Qed.

Lemma handlePatientMe_run id w :
  writer (mu (store w)) = false →
  result (handlePatientMe id w) =
    Returned match patients (store w) !! id with
             | None => mkResponse 404 (BodyError "not found")
             | Some p =>
                 mkResponse 200
                   (BodyPatient p
                      (doctors (store w) !!
                         default 0 (selections (store w) !! Patient_ID p)))
             end ∧
  final (handlePatientMe id w) = w.
Proof.
  intros Hq. destruct w as [[[wr n] ps ds bl sel sb] h dk k]. cbn in Hq. subst wr.
  unfold handlePatientMe, GetPatient, GetDoctor, RLock, RUnlock. run_M.
  destruct (ps !! id) as [p|]; cbn; [|done].
  by destruct (ds !! _).
Qed.

(** X7.  After a successful [SelectDoctor(pid, did)] the patient's own view
    ([/api/patient/me]) answers 200 with the patient and, as selected
    doctor, the doctor filed under [did]. *)
Theorem handlePatientMe_after_select order pid did w p x :
  quiescent w → dir_wf w → hub_open w → chan_order w did order →
  patients (store w) !! pid = Some p →
  doctors (store w) !! did = Some x →
  result (SelectDoctor_on order pid did w) = Returned None ∧
  result (handlePatientMe pid (final (SelectDoctor_on order pid did w))) =
    Returned (mkResponse 200 (BodyPatient p (Some x))).
Proof.
  intros Hq Hdir Hop Ho Hp Hx.
  destruct (SelectDoctor_valid order pid did w Hq Hop Ho)
    as (Hres & Hst & _); [by eexists | by eexists |].
  split; [done|].
  destruct (handlePatientMe_run pid (final (SelectDoctor_on order pid did w)))
    as [Hr _].
  { rewrite Hst. cbn. by apply quiescent_writer. }
  rewrite Hr, Hst. cbn. rewrite Hp. rewrite (Hdir _ _ Hp).
  rewrite lookup_insert_eq. cbn. by rewrite Hx.
Qed.

Lemma handlePatientMe_after_select_witness :
  result (SelectDoctor_on [0%nat] 1 10 w_sel) = Returned None ∧
  result (handlePatientMe 1 (final (SelectDoctor_on [0%nat] 1 10 w_sel))) =
    Returned (mkResponse 200 (BodyPatient p1 (Some d10))).
Proof.
  apply (handlePatientMe_after_select [0%nat] 1 10 w_sel p1 d10).
  - reflexivity.
  - apply (inv_dir _ _ w_sel_inv).
  - apply (inv_open _ _ w_sel_inv).
  - unfold chan_order. vm_compute. reflexivity.
  - reflexivity.
  - reflexivity.
Defined.

(** X8.  For a patient the relation has no entry for, the view looks up the
    zero id: it answers 200 with the patient and, as selected doctor, the
    doctor filed under id 0 when the directory has one, none otherwise.  An
    id the directory does not have gets 404.  The view changes nothing. *)
Theorem handlePatientMe_no_selection id w :
  writer (mu (store w)) = false → dir_wf w →
  selections (store w) !! id = None →
  result (handlePatientMe id w) =
    Returned match patients (store w) !! id with
             | None => mkResponse 404 (BodyError "not found")
             | Some p => mkResponse 200 (BodyPatient p (doctors (store w) !! 0))
             end ∧
  final (handlePatientMe id w) = w.
Proof.
  intros Hq Hdir Hsel.
  destruct (handlePatientMe_run id w Hq) as [Hr Hf]. split; [|done].
  rewrite Hr. destruct (patients (store w) !! id) as [p|] eqn:Hp; [|done].
  by rewrite (Hdir _ _ Hp), Hsel.
Qed.

Lemma handlePatientMe_no_selection_witness :
  result (handlePatientMe 2 w_sel) =
    Returned match patients (store w_sel) !! 2 with
             | None => mkResponse 404 (BodyError "not found")
             | Some p => mkResponse 200 (BodyPatient p (doctors (store w_sel) !! 0))
             end ∧
  final (handlePatientMe 2 w_sel) = w_sel.
Proof.
  apply (handlePatientMe_no_selection 2 w_sel).
  - reflexivity.
  - apply (inv_dir _ _ w_sel_inv).
  - reflexivity.
Defined.

(** X9.  [/api/patient/select-doctor] answers 200 exactly when the method
    is POST, the body decodes and both ids are in the directory; then the
    body is the ok status and the relation has the new pair.  Every other
    request (405 for another method, 400 otherwise) leaves the world as it
    was. *)
Theorem handleSelectDoctor_status order method decoded w :
  quiescent w → hub_open w →
  (∀ pid did, decoded = Some (pid, did) → chan_order w did order) →
  ∃ resp,
    result (handleSelectDoctor order method decoded w) = Returned resp ∧
    (resp_status resp = 200 ↔
       method = "POST" ∧
       ∃ pid did, decoded = Some (pid, did) ∧
                  is_Some (patients (store w) !! pid) ∧
                  is_Some (doctors (store w) !! did)) ∧
    (resp_status resp = 200 →
       resp_body resp = BodyStatusOk ∧
       ∃ pid did, decoded = Some (pid, did) ∧
                  selections (store (final (handleSelectDoctor order method decoded w))) =
                    <[pid := did]> (selections (store w))) ∧
    (resp_status resp ≠ 200 →
       final (handleSelectDoctor order method decoded w) = w ∧
       (resp_status resp = 405 ↔ method ≠ "POST") ∧
       (resp_status resp = 400 ↔ method = "POST")).
Proof.
  intros Hq Hop Ho. unfold handleSelectDoctor.
  case_decide as Hm.
  { eexists. split; [reflexivity|]. cbn. split; [|split]; [| done |].
    - split; [done | by intros [? _]].
    - intros _. split; [done|]. split; [done|]. split; [done | by intros ?]. }
  destruct decoded as [[pid did]|].
  2:{ eexists. split; [reflexivity|]. cbn. split; [|split]; [| done |].
      - split; [done | by intros (_ & ? & ? & ? & _)].
      - intros _. split; [done|]. split; [|done]. split; [done | by intros ?]. }
  specialize (Ho pid did eq_refl).
  destruct (SelectDoctor_cases order pid did w)
    as [[Hnq _]|[(_ & Hun & err & E)|(_ & Hp & Hd & _)]]; [done| |].
  - rewrite (bind_run _ _ w w _ _ E). cbn.
    eexists. split; [reflexivity|]. cbn. split; [|split]; [| done |].
    + split; [done|]. intros (_ & pid' & did' & [= <- <-] & [p Hp] & [x Hx]).
      destruct Hun; congruence.
    + intros _. split; [done|]. split; [|done]. split; [done | by intros ?].
  - destruct (SelectDoctor_valid order pid did w Hq Hop Ho Hp Hd)
      as (Hres & Hst & _).
    destruct (SelectDoctor_on order pid did w) as [t w' res] eqn:E.
    cbn in Hres, Hst. subst res.
    rewrite (bind_run _ _ w w' _ _ E). cbn.
    eexists. split; [reflexivity|]. cbn. split; [|split]; [| | done].
    + split; [|done]. intros _. split; [done|]. by exists pid, did.
    + intros _. split; [done|]. exists pid, did. split; [done|]. by rewrite Hst.
Qed.

Lemma handleSelectDoctor_status_witness :
  ∃ resp,
    result (handleSelectDoctor [0%nat] "POST" (Some (2, 10)) w_sel) = Returned resp ∧
    (resp_status resp = 200 ↔
       "POST" = "POST" ∧
       ∃ pid did, Some (2, 10) = Some (pid, did) ∧
                  is_Some (patients (store w_sel) !! pid) ∧
                  is_Some (doctors (store w_sel) !! did)) ∧
    (resp_status resp = 200 →
       resp_body resp = BodyStatusOk ∧
       ∃ pid did, Some (2, 10) = Some (pid, did) ∧
                  selections (store (final (handleSelectDoctor [0%nat] "POST"
                                              (Some (2, 10)) w_sel))) =
                    <[pid := did]> (selections (store w_sel))) ∧
    (resp_status resp ≠ 200 →
       final (handleSelectDoctor [0%nat] "POST" (Some (2, 10)) w_sel) = w_sel ∧
       (resp_status resp = 405 ↔ "POST" ≠ "POST") ∧
       (resp_status resp = 400 ↔ "POST" = "POST")).
Proof.
  apply (handleSelectDoctor_status [0%nat] "POST" (Some (2, 10)) w_sel).
  - reflexivity.
  - apply (inv_open _ _ w_sel_inv).
  - intros pid did [= <- <-]. unfold chan_order. vm_compute. reflexivity.
Defined.

(** X10.  [/api/doctor] answers 404 for an id the directory does not have,
    whatever the relation holds for that id; for a doctor of the directory
    it answers 200 with the doctor and exactly the patients of the directory
    whose ids the relation maps to the doctor.  It changes nothing. *)
Theorem handleDoctor_view order id w :
  writer (mu (store w)) = false → sel_order w order →
  final (handleDoctor order id w) = w ∧
  (doctors (store w) !! id = None →
     result (handleDoctor order id w) =
       Returned (mkResponse 404 (BodyError "not found"))) ∧
  (∀ x, doctors (store w) !! id = Some x →
     ∃ pts,
       result (handleDoctor order id w) =
         Returned (mkResponse 200 (BodyDoctor x pts)) ∧
       ∀ p, p ∈ pts ↔
            ∃ pid, selections (store w) !! pid = Some id ∧
                   patients (store w) !! pid = Some p).
Proof.
  intros Hq Ho. unfold handleDoctor.
  rewrite (bind_run _ _ w w _ _ (GetDoctor_run id w Hq)).
  destruct (doctors (store w) !! id) as [x|] eqn:Hx; cbn [negb snd fst].
  - rewrite (bind_run _ _ w w _ _ (PatientsOfDoctor_run order id w Hq)). cbn.
    split; [done|]. split; [done|]. intros ? [= <-].
    eexists. split; [done|]. intros p. by apply elem_of_scan.
  - cbn. split; [done|]. split; [done|]. by intros x [=].
Qed.

Lemma handleDoctor_view_witness :
  final (handleDoctor [(1, 10); (999, 10)] 10 world_stale) = world_stale ∧
  (doctors (store world_stale) !! 10 = None →
     result (handleDoctor [(1, 10); (999, 10)] 10 world_stale) =
       Returned (mkResponse 404 (BodyError "not found"))) ∧
  (∀ x, doctors (store world_stale) !! 10 = Some x →
     ∃ pts,
       result (handleDoctor [(1, 10); (999, 10)] 10 world_stale) =
         Returned (mkResponse 200 (BodyDoctor x pts)) ∧
       ∀ p, p ∈ pts ↔
            ∃ pid, selections (store world_stale) !! pid = Some 10 ∧
                   patients (store world_stale) !! pid = Some p).
Proof.
  apply (handleDoctor_view [(1, 10); (999, 10)] 10 world_stale).
  - reflexivity.
  - unfold sel_order. vm_compute. first [reflexivity | apply perm_swap].
Defined.

(** ** Beyond the claims: the life of a stream *)

Lemma reachable_beside_reachable h issued0 w0 issued w :
  reachable_beside h issued0 w0 issued w → reachable issued0 w0 issued w.
Proof.
  intros Hr. induction Hr as [|issued w a Hr IH Hal Hne]; [apply reach_start|].
  by apply reach_step.
Qed.

Lemma perform_subscribers_beside issued w a d ch :
  world_inv issued w → allowed issued w a → a ≠ ACancel (d, ch) →
  ch ∈ subscribers w d → ch ∈ subscribers (perform a w) d.
Proof.
  intros Hinv Hal Hne Hin. pose proof (inv_mu _ _ Hinv) as Hq.
  destruct a as [order pid did|order did|did|[did ch']|ch'|order]; cbn [perform].
  - destruct (select_keeps order pid did w Hq (inv_open _ _ Hinv))
      as (_ & _ & Hsb & _ & _).
    unfold subscribers. by rewrite Hsb.
  - by rewrite PatientsOfDoctor_run by by apply quiescent_writer.
  - rewrite Subscribe_quiescent by done. cbn. rewrite subscribers_subscribed.
    case_decide as Hd; [|done]. subst. set_solver.
  - assert (ch ∈ subscribers (removed did ch' w) d) as Hin'.
    { rewrite subscribers_removed. case_decide as Hd; [|done]. subst did.
      apply elem_of_difference. split; [done|].
      intros ->%elem_of_singleton. by apply Hne. }
    destruct (cancel_cases did ch' w Hq)
      as [(c & _ & _ & E)|(msg & _ & _ & E)]; by rewrite E.
  - by destruct (try_recv_cases ch' w) as [(c & n & _ & _ & E)|E]; rewrite E.
  - by rewrite persistSelections_run by by apply quiescent_writer.
Qed.

Lemma streamStart_known id w x :
  quiescent w → doctors (store w) !! id = Some x →
  streamStart id w =
    mkRun [EvRLock; EvRUnlock; EvLock; EvMake (fresh (dom (heap w))); EvUnlock]
      (subscribed id w)
      (Returned (inr ((id, fresh (dom (heap w))), [ping_event]))).
Proof.
  intros Hq Hx. unfold streamStart.
  rewrite (bind_run _ _ w w _ _ (GetDoctor_run id w (quiescent_writer w Hq))).
  rewrite Hx. cbn [negb snd fst].
  by rewrite (bind_run _ _ w _ _ _ (Subscribe_quiescent id w Hq)).
Qed.

(** X11.  A stream for a doctor of the directory starts by registering a
    channel never used before and writing one ping.  Whatever the rest of
    the program does in between (it cannot call this stream's [cancel]), the
    channel stays registered, and when the connection ends the deferred
    [cancel] returns without panic, takes exactly this channel out of the
    registry and leaves it closed. *)
Theorem stream_lifecycle issued0 w0 id x :
  world_inv issued0 w0 → doctors (store w0) !! id = Some x →
  ∃ ch,
    result (streamStart id w0) = Returned (inr ((id, ch), [ping_event])) ∧
    (ch ∉ dom (heap w0)) ∧
    ∀ issued w,
      reachable_beside (id, ch) ((id, ch) :: issued0)
        (final (streamStart id w0)) issued w →
      ch ∈ subscribers w id ∧
      result (streamTurn (id, ch) CtxDone w) = Returned (false, []) ∧
      (∀ d, subscribers (final (streamTurn (id, ch) CtxDone w)) d =
            subscribers w d ∖ {[ch]}) ∧
      gone ch (final (streamTurn (id, ch) CtxDone w)).
Proof.
  intros Hinv0 Hx. pose proof (inv_mu _ _ Hinv0) as Hq0.
  exists (fresh (dom (heap w0))).
  rewrite (streamStart_known id w0 x Hq0 Hx). cbn [result final].
  split; [done|]. split; [apply is_fresh|].
  intros issued w Hr.
  assert (world_inv ((id, fresh (dom (heap w0))) :: issued0) (subscribed id w0))
    as Hinv1.
  { pose proof (world_inv_subscribe issued0 w0 id Hinv0) as H.
    by rewrite (Subscribe_quiescent id w0 Hq0) in H. }
  set (ch := fresh (dom (heap w0))) in *.
  assert (world_inv issued w ∧ ch ∈ subscribers w id ∧ (id, ch) ∈ issued)
    as (Hinv & Hin & Hiss).
  { induction Hr as [|issued w a Hr IH Hal Hne].
    - split; [done|]. split; [|left].
      rewrite subscribers_subscribed, decide_True by done. set_solver.
    - destruct IH as (Hinv & Hin & Hiss). split; [|split].
      + by apply world_inv_step.
      + by eapply perform_subscribers_beside.
      + apply elem_of_app. by right. }
  pose proof (inv_mu _ _ Hinv) as Hq.
  destruct (inv_open _ _ Hinv id ch Hin) as (c & Hc & Hcl & _).
  split; [done|].
  destruct (cancel_cases id ch w Hq)
    as [(c' & Hc' & _ & E)|(msg & [Hn|(c' & Hc' & Hcl')] & _ & _)];
    [|congruence..].
  unfold streamTurn. rewrite (bind_run _ _ w _ _ _ E).
  unfold mret, M_ret, ret. cbn [result final].
  split; [done|]. split.
  - intros d. change (subscribers (with_heap _ (removed id ch w)) d)
      with (subscribers (removed id ch w) d).
    rewrite subscribers_removed. case_decide as Hd; [by subst|].
    assert (ch ∉ subscribers w d) as Hni.
    { intros Hin'. apply Hd. by eapply (world_inv_disjoint _ _ Hinv). }
    set_solver.
  - pose proof (gone_after_cancel issued w id ch Hinv Hiss) as Hg.
    by rewrite E in Hg.
Qed.

Lemma stream_lifecycle_witness :
  ∃ ch,
    result (streamStart 20 w_sel) = Returned (inr ((20, ch), [ping_event])) ∧
    (ch ∉ dom (heap w_sel)) ∧
    ∀ issued w,
      reachable_beside (20, ch) ((20, ch) :: [(10, 0%nat)])
        (final (streamStart 20 w_sel)) issued w →
      ch ∈ subscribers w 20 ∧
      result (streamTurn (20, ch) CtxDone w) = Returned (false, []) ∧
      (∀ d, subscribers (final (streamTurn (20, ch) CtxDone w)) d =
            subscribers w d ∖ {[ch]}) ∧
      gone ch (final (streamTurn (20, ch) CtxDone w)).
Proof.
  apply (stream_lifecycle [(10, 0%nat)] w_sel 20 d20).
  - exact w_sel_inv.
  - reflexivity.
Defined.

(** X12.  After a burst of one or more successful [SelectDoctor] calls for
    its doctor, the stream's next turn on the channel writes one update
    event, and the turn after that finds nothing and writes nothing: the
    burst shows as exactly one update. *)
Theorem burst_one_update did calls w ch :
  quiescent w → hub_open w →
  calls ≠ [] →
  (∀ pid order, (pid, order) ∈ calls →
     is_Some (patients (store w) !! pid) ∧ chan_order w did order) →
  is_Some (doctors (store w) !! did) →
  ch ∈ subscribers w did →
  result (streamTurn (did, ch) ChanReady (burst did calls w)) =
    Returned (true, [update_event]) ∧
  result (streamTurn (did, ch) ChanReady
            (final (streamTurn (did, ch) ChanReady (burst did calls w)))) =
    Returned (true, []) ∧
  pending (final (streamTurn (did, ch) ChanReady (burst did calls w))) ch = 0%nat.
Proof.
  intros Hq Hop Hne Hc Hd Hin.
  destruct (burst_pending did ch calls w) as (Hpend & _ & _ & _); auto.
  set (wb := burst did calls w) in *.
  unfold pending in Hpend. destruct (heap wb !! ch) as [c|] eqn:Hch; [|done].
  destruct (try_recv_cases ch wb) as [(c' & n & Hc' & Hb & E)|E].
  - assert (c' = c) as -> by congruence.
    assert (n = 0%nat) as -> by lia.
    unfold streamTurn. cbn [snd]. rewrite (bind_run _ _ wb _ _ _ E).
    unfold mret, M_ret, ret. cbn [result final trace]. split; [done|].
    set (w1 := with_heap (<[ch:=mkChan (cap c) 0 (closed c)]> (heap wb)) wb).
    assert (try_recv ch w1 = mkRun [] w1 (Returned false)) as E1.
    { destruct (try_recv_cases ch w1) as [(c1 & n1 & Hc1 & Hb1 & _)|E1]; [|done].
      unfold w1 in Hc1. cbn in Hc1. rewrite lookup_insert_eq in Hc1.
      injection Hc1 as <-. cbn in Hb1. lia. }
    rewrite (bind_run _ _ w1 _ _ _ E1). cbn [result final].
    split; [done|]. unfold pending. cbn. by rewrite lookup_insert_eq.
  - exfalso. unfold try_recv in E. revert E. run_M. rewrite Hch. cbn.
    rewrite Hpend. cbn. discriminate.
Qed.

Lemma burst_one_update_witness :
  result (streamTurn (10, 0%nat) ChanReady
            (burst 10 [(1, [0%nat]); (2, [0%nat])] w_sub)) =
    Returned (true, [update_event]) ∧
  result (streamTurn (10, 0%nat) ChanReady
            (final (streamTurn (10, 0%nat) ChanReady
                      (burst 10 [(1, [0%nat]); (2, [0%nat])] w_sub)))) =
    Returned (true, []) ∧
  pending (final (streamTurn (10, 0%nat) ChanReady
                    (burst 10 [(1, [0%nat]); (2, [0%nat])] w_sub))) 0%nat = 0%nat.
Proof.
  apply (burst_one_update 10 [(1, [0%nat]); (2, [0%nat])] w_sub 0%nat).
  - reflexivity.
  - apply (inv_open _ _ w_sub_inv).
  - discriminate.
  - intros pid order Hin.
    repeat (apply elem_of_cons in Hin as [[= -> ->]|Hin];
            [split; [eexists; vm_compute; reflexivity
                    | unfold chan_order; vm_compute; reflexivity]|]).
    by apply elem_of_nil in Hin.
  - eexists. vm_compute. reflexivity.
  - vm_compute. reflexivity.
Defined.

(** ** Beyond the claims: selections and the disk *)

(** X13.  A successful [SelectDoctor] starts a flush; once that flush has
    run on a writable disk, a restart from the disk reads back the relation
    with the new pair in it. *)
Theorem select_flush_restart order pid did w s :
  quiescent w → hub_open w → chan_order w did order →
  is_Some (patients (store w) !! pid) → is_Some (doctors (store w) !! did) →
  writable (disk w) = true → seedFile (disk w) = Some s →
  (0 < spawned (final (SelectDoctor_on order pid did w)))%nat ∧
  ∀ o, sel_order (final (SelectDoctor_on order pid did w)) o →
    ∃ w0,
      NewStore (disk (perform (AFlush o) (final (SelectDoctor_on order pid did w))))
        = Some w0 ∧
      selections (store w0) = <[pid := did]> (selections (store w)).
Proof.
  intros Hq Hop Ho Hp Hd Hwr Hs.
  destruct (SelectDoctor_valid order pid did w Hq Hop Ho Hp Hd)
    as (_ & Hst & Hdk & Hsp & _).
  set (w1 := final (SelectDoctor_on order pid did w)) in *.
  split; [rewrite Hsp; lia|].
  intros o Hso. cbn [perform].
  rewrite persistSelections_run
    by (cbn; rewrite Hst; cbn; by apply quiescent_writer).
  cbn. unfold flushed. cbn. rewrite Hdk, Hwr. cbn.
  destruct (NewStore (mkDisk (seedFile (disk w)) (Some (snapshot o)) true))
    as [w0|] eqn:Hn.
  - exists w0. split; [done|].
    apply NewStore_world in Hn as (s' & _ & ->). cbn.
    rewrite (merged_roundtrip o (selections (store w1))) by done.
    by rewrite Hst.
  - unfold NewStore in Hn. cbn in Hn. by rewrite Hs in Hn.
Qed.

Lemma select_flush_restart_witness :
  (0 < spawned (final (SelectDoctor_on [0%nat] 2 10 w_sel)))%nat ∧
  ∀ o, sel_order (final (SelectDoctor_on [0%nat] 2 10 w_sel)) o →
    ∃ w0,
      NewStore (disk (perform (AFlush o) (final (SelectDoctor_on [0%nat] 2 10 w_sel))))
        = Some w0 ∧
      selections (store w0) = <[2 := 10]> (selections (store w_sel)).
Proof.
  apply (select_flush_restart [0%nat] 2 10 w_sel seed0).
  - reflexivity.
  - apply (inv_open _ _ w_sel_inv).
  - unfold chan_order. vm_compute. reflexivity.
  - eexists. vm_compute. reflexivity.
  - eexists. vm_compute. reflexivity.
  - reflexivity.
  - reflexivity.
Defined.



(** X15.  Startup needs the seed only.  With a readable seed and no
    readable snapshot, [NewStore] succeeds: the relation is empty, no lock is
    held, no channel exists and nobody is subscribed.  [loadSelections]
    itself returns an error then and leaves the world as it was. *)
Theorem NewStore_missing_snapshot (d : Disk) (s : Seed) :
  seedFile d = Some s → selectionFile d = None →
  (∃ w0, NewStore d = Some w0 ∧
         selections (store w0) = ∅ ∧ quiescent w0 ∧ heap w0 = ∅ ∧
         (∀ id, subscribers w0 id = ∅) ∧
         patients (store w0) = patients (directory s) ∧
         doctors (store w0) = doctors (directory s)) ∧
  ∀ w, quiescent w → disk w = d →
    (∃ err, result (loadSelections w) = Returned (Some err)) ∧
    final (loadSelections w) = w.
Proof.
  intros Hs Hf. split.
  - destruct (NewStore d) as [w0|] eqn:Hn.
    + exists w0. split; [done|].
      pose proof (world_inv_start d w0 Hn) as Hinv.
      destruct (NewStore_world d w0 Hn) as (s' & Hs' & ->).
      assert (s' = s) as -> by congruence.
      destruct (directory_facts s) as (_ & _ & _ & Hsub).
      rewrite Hf. cbn. split; [done|]. split; [apply Hinv|]. split; [done|].
      split; [|done]. intros id. unfold subscribers. cbn. apply Hsub.
    + unfold NewStore in Hn. by rewrite Hs in Hn.
  - intros w Hq <-. split.
    + unfold loadSelections.
      rewrite write_section; [|done|..]; unfold readSelectionFile; run_M;
        rewrite Hf; cbn; [by eexists | done | done].
    + rewrite loadSelections_final by done. unfold loaded. by rewrite Hf.
Qed.

Lemma NewStore_missing_snapshot_witness :
  (∃ w0, NewStore disk0 = Some w0 ∧
         selections (store w0) = ∅ ∧ quiescent w0 ∧ heap w0 = ∅ ∧
         (∀ id, subscribers w0 id = ∅) ∧
         patients (store w0) = patients (directory seed0) ∧
         doctors (store w0) = doctors (directory seed0)) ∧
  ∀ w, quiescent w → disk w = disk0 →
    (∃ err, result (loadSelections w) = Returned (Some err)) ∧
    final (loadSelections w) = w.
Proof. apply (NewStore_missing_snapshot disk0 seed0); reflexivity. Defined.

Lemma merged_snoc arr x (m : gmap Z Z) :
  merged (arr ++ [x]) m = <[PatientID x := DoctorID x]> (merged arr m).
Proof. unfold merged. by rewrite foldl_app. Qed.

(** X16.  [loadSelections] with a readable snapshot returns nil and merges
    by key: a patient id the snapshot mentions gets the doctor id of its
    last entry, any other patient id keeps what the map had.  Nothing is
    checked against the directory, which stays as it was. *)
Theorem loadSelections_merge w arr :
  quiescent w → selectionFile (disk w) = Some arr →
  result (loadSelections w) = Returned None ∧
  (∀ pid,
     selections (store (final (loadSelections w))) !! pid =
       match list_find (λ x, PatientID x = pid) (reverse arr) with
       | Some (_, x) => Some (DoctorID x)
       | None => selections (store w) !! pid
       end) ∧
  patients (store (final (loadSelections w))) = patients (store w) ∧
  doctors (store (final (loadSelections w))) = doctors (store w).
Proof.
  intros Hq Hf. split; [|split].
  - unfold loadSelections.
    rewrite write_section; [|done|..]; unfold readSelectionFile; run_M;
      rewrite Hf; run_M; rewrite load_loop; done.
  - rewrite loadSelections_final by done. unfold loaded. rewrite Hf. cbn.
    intros pid. generalize (selections (store w)). intros m. clear Hf.
    induction arr as [|x arr IH] using rev_ind; [done|].
    rewrite merged_snoc, reverse_app. cbn [reverse app].
    change (reverse [x] ++ reverse arr) with (x :: reverse arr).
    cbn [list_find]. rewrite lookup_insert.
    destruct (decide (PatientID x = pid)) as [Hx|Hx]; [done|].
    rewrite IH. by destruct (list_find _ (reverse arr)) as [[i y]|].
  - rewrite loadSelections_final by done. unfold loaded. by rewrite Hf.
Qed.

Lemma loadSelections_merge_witness :
  result (loadSelections w_load) = Returned None ∧
  (∀ pid,
     selections (store (final (loadSelections w_load))) !! pid =
       match list_find (λ x, PatientID x = pid)
               (reverse [mkSelection 2 10; mkSelection 2 20]) with
       | Some (_, x) => Some (DoctorID x)
       | None => selections (store w_load) !! pid
       end) ∧
  patients (store (final (loadSelections w_load))) = patients (store w_load) ∧
  doctors (store (final (loadSelections w_load))) = doctors (store w_load).
Proof.
  refine (loadSelections_merge w_load [mkSelection 2 10; mkSelection 2 20] _ _).
  - vm_compute. reflexivity.
  - vm_compute. reflexivity.
Defined.
